(** * Stats synchronizer of NekoPartnerMediaPlayer (src/index.js)

    A shallow embedding of the background job [updateAllStatsInBackground]
    and of its helper [fetchYouTubeStats], together with the parts of the
    outside world the job talks to: the clock, the extractor
    (youtube-dl-exec), the Redis cache and the Sequelize [Song] table.

    JavaScript's [async] functions are modelled in a small monad over an
    explicit [World]; every [await] of an outside service asks an [Env]
    how that service settles (resolves, rejects, or never settles) and how
    long it takes.  Time is the clock of the [World]: an [await] lasts a
    non-negative number of milliseconds and a timer fires no earlier than
    its delay.  Every call to an outside service is recorded, in order, in
    the [trace] of the world.

    One tick is modelled running alone: neither a request handler nor a
    second tick started by [setInterval] touches the table between two of
    its steps. *)

From Stdlib Require Import ZArith QArith Lia Lqa Ascii String.
From stdpp Require Import base numbers list strings gmap pretty.

Local Open Scope string_scope.
Local Open Scope list_scope.
Local Open Scope Z_scope.

(** ** Values *)

(** What a field of the extractor's JSON dump can hold for a counter:
    missing, [null], or an integer count.  [JNumber] stands for the integral
    numbers that [Number.prototype.toString] prints as plain decimal digits. *)
Inductive jsval :=
| JUndefined
| JNull
| JNumber (n : Z).

(** The two fields of [data] that [fetchYouTubeStats] reads. *)
Record Metadata := { view_count : jsval; like_count : jsval }.

(** The object literal [{ views, likes }] returned by [fetchYouTubeStats]. *)
Record Stats := { views : string; likes : string }.

(** Values thrown or rejected with. *)
Inductive Error :=
| ReferenceError (ident : string)
| Failure (msg : string).

(** What a [views]/[likes] column holds: the schema default is the integer 0,
    the job hands the ORM a string. *)
Inductive cell :=
| CInt (z : Z)
| CStr (s : string).

(** A row of the [Songs] table (src/models/Song.js), with the two timestamp
    columns Sequelize adds to every model (instants in ms since the epoch). *)
Module Song.
Record t := mk {
  id : Z;
  Artist : string;
  title : string;
  cover : string;
  youtubeid : string;
  views : cell;
  likes : cell;
  playlistId : Z;
  createdAt : Z;
  updatedAt : Z
}.
End Song.

(** ** The world and its observable calls *)

Inductive Event :=
| Ev_youtubedl (url : string)
| Ev_redis_set (key value : string) (ex : Z)
| Ev_Song_update (values : Stats) (where_youtubeid : string)
| Ev_Song_findAll (cutoff : Z)
| Ev_sleep (ms : Z)
| Ev_log_updated (at_ms : Z) (youtubeid : string) (wait_s : Z)
| Ev_error_fetch (youtubeid : string) (err : Error)
| Ev_error_tick (err : Error).

Record World := {
  now : Z;                              (* Date.now() *)
  Songs : list Song.t;                   (* the durable table *)
  kv : gmap string (string * Z);        (* Redis: key -> value, expiry instant *)
  trace : list Event                    (* outside calls, oldest first *)
}.

(** How an awaited promise of an outside service settles. *)
Inductive Settled (A : Type) :=
| Resolves (a : A) (ms : N)
| Rejects (e : Error) (ms : N)
| NeverSettles.
Arguments Resolves {A} a ms.
Arguments Rejects {A} e ms.
Arguments NeverSettles {A}.

(** The behaviour of the outside services, each asked at the instant of the
    call. *)
Record Env := {
  youtubedl_reply : string → Z → Settled Metadata;
  redis_reply : string → string → Z → Settled unit;
  update_reply : Stats → string → Z → Settled unit;
  findAll_reply : Z → Settled unit;
  timer_lag : Z → N
}.

(** ** The async monad *)

Inductive Outcome (A : Type) :=
| Returned (a : A) (w : World)
| Threw (e : Error) (w : World)
| Pending (w : World).
Arguments Returned {A} a w.
Arguments Threw {A} e w.
Arguments Pending {A} w.

Definition Async (A : Type) : Type := World → Outcome A.

Definition ret {A} (a : A) : Async A := fun w => Returned a w.

Definition throw {A} (e : Error) : Async A := fun w => Threw e w.

Definition bind {A B} (m : Async A) (k : A → Async B) : Async B :=
  fun w =>
    match m w with
    | Returned a w' => k a w'
    | Threw e w' => Threw e w'
    | Pending w' => Pending w'
    end.

Declare Scope async_scope.
Delimit Scope async_scope with async.
Notation "x <- m ;; k" := (bind m (fun x => k))
  (at level 100, m at next level, right associativity) : async_scope.
Notation "m ;;; k" := (bind m (fun _ => k))
  (at level 100, right associativity) : async_scope.
Local Open Scope async_scope.

(** [try { body } catch (err) { handler }] *)
Definition try_catch {A} (body : Async A) (handler : Error → Async A) : Async A :=
  fun w =>
    match body w with
    | Threw e w' => handler e w'
    | r => r
    end.

(** [for (const x of xs) { body }] *)
Fixpoint for_of {A} (xs : list A) (body : A → Async unit) : Async unit :=
  match xs with
  | [] => ret tt
  | x :: rest => body x ;;; for_of rest body
  end.

Definition world_of {A} (o : Outcome A) : World :=
  match o with
  | Returned _ w | Threw _ w | Pending w => w
  end.

(** ** World primitives *)

Definition emit (ev : Event) (w : World) : World :=
  {| now := now w; Songs := Songs w; kv := kv w; trace := trace w ++ [ev] |}.

Definition advance (ms : N) (w : World) : World :=
  {| now := now w + Z.of_N ms; Songs := Songs w; kv := kv w; trace := trace w |}.

Definition with_Songs (rows : list Song.t) (w : World) : World :=
  {| now := now w; Songs := rows; kv := kv w; trace := trace w |}.

Definition with_kv (m : gmap string (string * Z)) (w : World) : World :=
  {| now := now w; Songs := Songs w; kv := m; trace := trace w |}.

(** Awaiting a promise: time passes until it settles, if it ever does. *)
Definition await {A} (s : Settled A) : Async A :=
  fun w =>
    match s with
    | Resolves a ms => Returned a (advance ms w)
    | Rejects e ms => Threw e (advance ms w)
    | NeverSettles => Pending w
    end.

Definition Date_now : Async Z := fun w => Returned (now w) w.

Definition console (ev : Event) : Async unit := fun w => Returned tt (emit ev w).

(** ** Constants and pure helpers of src/index.js *)

Definition COOLDOWN_MS : Z := 30 * 1000.

(** [JSON.stringify] of a string: quotes, with the quote, the backslash and
    the control characters escaped. *)
Definition hex_digit (n : N) : ascii :=
  match n with
  | 0 => "0" | 1 => "1" | 2 => "2" | 3 => "3" | 4 => "4" | 5 => "5"
  | 6 => "6" | 7 => "7" | 8 => "8" | 9 => "9" | 10 => "a" | 11 => "b"
  | 12 => "c" | 13 => "d" | 14 => "e" | _ => "f"
  end%char%N.

Definition backslash : ascii := "092"%char.

Definition json_escape_char (c : ascii) : string :=
  let n := N_of_ascii c in
  if (n =? 34)%N then String backslash (String c "")        (* the quote *)
  else if (n =? 92)%N then String backslash (String c "")   (* the backslash *)
  else if (n =? 8)%N then String backslash "b"
  else if (n =? 9)%N then String backslash "t"
  else if (n =? 10)%N then String backslash "n"
  else if (n =? 12)%N then String backslash "f"
  else if (n =? 13)%N then String backslash "r"
  else if (n <? 32)%N then
    String backslash
      ("u00" +:+ String (hex_digit (n / 16)) (String (hex_digit (n mod 16)) ""))
  else String c "".

Fixpoint json_escape (s : string) : string :=
  match s with
  | EmptyString => EmptyString
  | String c rest => json_escape_char c +:+ json_escape rest
  end.

Definition dquote : string := String "034"%char "".

Definition json_string (s : string) : string := dquote +:+ json_escape s +:+ dquote.

(** [JSON.stringify(stats)] for the object [{ views, likes }]. *)
Definition JSON_stringify (stats : Stats) : string :=
  "{" +:+ json_string "views" +:+ ":" +:+ json_string (views stats) +:+ ","
      +:+ json_string "likes" +:+ ":" +:+ json_string (likes stats) +:+ "}".

(** What a free identifier of the module resolves to at run time.  The
    only one that matters here is [Op], the operator table of Sequelize. *)
Inductive Resolution :=
| Unbound
| Sequelize_Op.

(** Every name bound at the top level of src/index.js: its [require]s,
    constants and function declarations. *)
Definition index_js_bindings : list string :=
  [ "express"; "session"; "Redis"; "Sequelize"; "DataTypes"; "youtubedl";
    "path"; "bodyParser"; "bcrypt"; "Playlist"; "Song"; "User"; "sequelize";
    "COOLDOWN_MS"; "sleep"; "app"; "PORT"; "redis"; "fetchYouTubeStats";
    "updateAllStatsInBackground"; "isAuthenticated" ].

(** The names in scope where line 70 is evaluated: the two constants of the
    [try] block and the top level of the module.  Below them lies only the
    global object of Node, which has no property [Op]. *)
Definition scope_of_line_70 : list string :=
  [ "cutoff"; "songs" ] ++ index_js_bindings.

(** Evaluating [Op.lt] inside the [where] object. *)
Definition Op_lt (Op : Resolution) : Async unit :=
  match Op with
  | Unbound => throw (ReferenceError "Op")
  | Sequelize_Op => ret tt
  end.

Section Program.

Context (env : Env).

(** [youtubedl(url, { dumpSingleJson: true, ... })] *)
Definition youtubedl (url : string) : Async Metadata :=
  fun w => await (youtubedl_reply env url (now w)) (emit (Ev_youtubedl url) w).

(** Node clamps a timer delay outside [1, 2^31-1] to 1 ms. *)
Definition timer_delay (ms : Z) : Z :=
  if bool_decide (ms < 1 ∨ 2147483647 < ms) then 1 else ms.

(** [sleep(ms)]: a promise resolved by [setTimeout(resolve, ms)]; the timer
    fires no earlier than its delay. *)
Definition sleep (ms : Z) : Async unit :=
  fun w =>
    Returned tt
      (advance (Z.to_N (timer_delay ms) + timer_lag env (now w)) (emit (Ev_sleep ms) w)).

(** [redis.set(key, value, 'EX', ex)]: the key holds [value] until [ex]
    seconds after the call. *)
Definition redis_set (key value : string) (ex : Z) : Async unit :=
  fun w =>
    let w1 := emit (Ev_redis_set key value ex) w in
    match redis_reply env key value (now w) with
    | Resolves _ ms =>
        Returned tt (advance ms (with_kv (<[key := (value, now w + ex * 1000)]> (kv w)) w1))
    | Rejects e ms => Threw e (advance ms w1)
    | NeverSettles => Pending w1
    end.

(** [Song.findAll({ where: { updatedAt: { [Op.lt]: cutoff } } })] *)
Definition Song_findAll (cutoff : Z) : Async (list Song.t) :=
  fun w =>
    let w1 := emit (Ev_Song_findAll cutoff) w in
    match findAll_reply env (now w) with
    | Resolves _ ms =>
        Returned (filter (λ r, Song.updatedAt r < cutoff) (Songs w)) (advance ms w1)
    | Rejects e ms => Threw e (advance ms w1)
    | NeverSettles => Pending w1
    end.

(** The SET clause of Sequelize's bulk update: the two given attributes, and
    [updatedAt], which the ORM refreshes on every update. *)
Definition set_metrics (values : Stats) (t : Z) (r : Song.t) : Song.t :=
  {| Song.id := Song.id r;
     Song.Artist := Song.Artist r;
     Song.title := Song.title r;
     Song.cover := Song.cover r;
     Song.youtubeid := Song.youtubeid r;
     Song.views := CStr (views values);
     Song.likes := CStr (likes values);
     Song.playlistId := Song.playlistId r;
     Song.createdAt := Song.createdAt r;
     Song.updatedAt := t |}.

Definition update_where (values : Stats) (y : string) (t : Z) (r : Song.t) : Song.t :=
  if decide (Song.youtubeid r = y) then set_metrics values t r else r.

(** [Song.update({ views, likes }, { where: { youtubeid } })]; a rejected
    statement changes no row. *)
Definition Song_update (values : Stats) (y : string) : Async unit :=
  fun w =>
    let w1 := emit (Ev_Song_update values y) w in
    match update_reply env values y (now w) with
    | Resolves _ ms =>
        Returned tt (advance ms (with_Songs (update_where values y (now w) <$> Songs w) w1))
    | Rejects e ms => Threw e (advance ms w1)
    | NeverSettles => Pending w1
    end.

(** *** [fetchYouTubeStats] (src/index.js, lines 45-62) *)

(** [v?.toString()] *)
Definition optional_toString (v : jsval) : option string :=
  match v with
  | JUndefined | JNull => None
  | JNumber n => Some (pretty n)
  end.

(** [l || r] for a left operand that is a string or [undefined]: the empty
    string and [undefined] are falsy. *)
Definition or_else (l : option string) (r : string) : string :=
  match l with
  | Some s => if decide (s = "") then r else s
  | None => r
  end.

Definition watch_url (youtubeid : string) : string :=
  "https://www.youtube.com/watch?v=" +:+ youtubeid.

Definition fetchYouTubeStats (youtubeid : string) : Async Stats :=
  try_catch
    (data <- youtubedl (watch_url youtubeid) ;;
     ret {| views := or_else (optional_toString (view_count data)) "N/A";
            likes := or_else (optional_toString (like_count data)) "N/A" |})
    (fun err =>
       console (Ev_error_fetch youtubeid err) ;;;
       ret {| views := "N/A"; likes := "N/A" |}).

(** *** [updateAllStatsInBackground] (src/index.js, lines 65-83) *)

Definition cache_key (youtubeid : string) : string := "ytstats:" +:+ youtubeid.

(** The body of the [for ... of] loop, lines 74-78. *)
Definition process_song (song : Song.t) : Async unit :=
  stats <- fetchYouTubeStats (Song.youtubeid song) ;;
  redis_set (cache_key (Song.youtubeid song)) (JSON_stringify stats) 60 ;;;
  Song_update {| views := views stats; likes := likes stats |} (Song.youtubeid song) ;;;
  t <- Date_now ;;
  console (Ev_log_updated t (Song.youtubeid song) (COOLDOWN_MS / 1000)) ;;;
  sleep COOLDOWN_MS.

(** The [try] block, lines 67-79. *)
Definition try_block (Op : Resolution) : Async unit :=
  t <- Date_now ;;
  let cutoff := t - 10 * 60 * 1000 in
  Op_lt Op ;;;
  songs <- Song_findAll cutoff ;;
  for_of songs process_song.

Definition updateAllStatsInBackground (Op : Resolution) : Async unit :=
  try_catch (try_block Op) (fun err => console (Ev_error_tick err)).

End Program.

(** The module as shipped: [Op] is used on line 70 and bound nowhere. *)
Definition index_js_Op : Resolution :=
  if bool_decide ("Op" ∈ scope_of_line_70) then Sequelize_Op else Unbound.

(** ** Vocabulary of the statements *)

(** The value [fetchYouTubeStats] falls back to. *)
Definition sentinel : Stats := {| views := "N/A"; likes := "N/A" |}.

(** The coercion of one counter as the specification words it: the decimal
    text of a count that is there, the sentinel text otherwise. *)
Definition decimal_or_sentinel (v : jsval) : string :=
  match v with
  | JNumber n => pretty n
  | JUndefined | JNull => "N/A"
  end.

(** What a settled extractor call makes [fetchYouTubeStats] return. *)
Definition stats_of_reply (s : Settled Metadata) : option Stats :=
  match s with
  | Resolves data _ =>
      Some {| views := decimal_or_sentinel (view_count data);
              likes := decimal_or_sentinel (like_count data) |}
  | Rejects _ _ => Some sentinel
  | NeverSettles => None
  end.

Definition returned {A} (o : Outcome A) : option A :=
  match o with
  | Returned a _ => Some a
  | Threw _ _ | Pending _ => None
  end.

Definition is_returned {A} (o : Outcome A) : bool :=
  match o with
  | Returned _ _ => true
  | Threw _ _ | Pending _ => false
  end.

Definition is_fetch (ev : Event) : bool :=
  match ev with Ev_youtubedl _ => true | _ => false end.

(** A sleep of exactly [COOLDOWN_MS]. *)
Definition is_cooldown (ev : Event) : bool :=
  match ev with Ev_sleep ms => bool_decide (ms = COOLDOWN_MS) | _ => false end.

Definition is_log_updated (ev : Event) : bool :=
  match ev with Ev_log_updated _ _ _ => true | _ => false end.

Definition count (p : Event → bool) (tr : list Event) : nat :=
  length (List.filter p tr).

(** A row is stale for a tick started at instant [t]. *)
Definition stale (t : Z) (r : Song.t) : Prop := Song.updatedAt r < t - 10 * 60 * 1000.

Global Instance stale_dec t r : Decision (stale t r).
Proof. unfold stale. apply _. Defined.

(** All the columns a metrics update must leave alone. *)
Definition same_other_columns (r r' : Song.t) : Prop :=
  Song.id r' = Song.id r ∧ Song.Artist r' = Song.Artist r ∧ Song.title r' = Song.title r
  ∧ Song.cover r' = Song.cover r ∧ Song.youtubeid r' = Song.youtubeid r
  ∧ Song.playlistId r' = Song.playlistId r ∧ Song.createdAt r' = Song.createdAt r.

(** Between two fetches lies the cooldown: every extractor call of a trace
    except its very first event comes right after a sleep of [COOLDOWN_MS]. *)
Definition cooldown_before_each_fetch (evs : list Event) : Prop :=
  ∀ i url, evs !! S i = Some (Ev_youtubedl url) → evs !! i = Some (Ev_sleep COOLDOWN_MS).

(** Row [r'] is row [r] with its metrics overwritten by the answer the
    extractor gave, at some instant from [t0] on, for a song of [songs] that
    carries the same youtubeid, and its timestamp refreshed. *)
Definition rewritten (env : Env) (songs : list Song.t) (t0 : Z) (r r' : Song.t) : Prop :=
  ∃ s stats t_ask t,
    s ∈ songs ∧ Song.youtubeid s = Song.youtubeid r
    ∧ t0 ≤ t_ask
    ∧ stats_of_reply (youtubedl_reply env (watch_url (Song.youtubeid s)) t_ask) = Some stats
    ∧ t0 ≤ t
    ∧ r' = set_metrics stats t r.

(** The period of [setInterval(updateAllStatsInBackground, 60 * 1000)],
    src/index.js line 85. *)
Definition TICK_INTERVAL_MS : Z := 60 * 1000.

(** Every outside service answers in the end, be it with an error. *)
Definition responsive (env : Env) : Prop :=
  (∀ url t, youtubedl_reply env url t ≠ NeverSettles)
  ∧ (∀ k v t, redis_reply env k v t ≠ NeverSettles)
  ∧ (∀ v y t, update_reply env v y t ≠ NeverSettles)
  ∧ (∀ t, findAll_reply env t ≠ NeverSettles).

(** The URLs handed to the extractor, in call order. *)
Definition fetch_urls (evs : list Event) : list string :=
  omap (λ ev, match ev with Ev_youtubedl url => Some url | _ => None end) evs.

(** ** Sample worlds and environments *)

Definition song (i : Z) (y : string) (v l : Z) (updated : Z) : Song.t :=
  {| Song.id := i; Song.Artist := "artist"; Song.title := "title"; Song.cover := "cover.png";
     Song.youtubeid := y; Song.views := CInt v; Song.likes := CInt l;
     Song.playlistId := 1; Song.createdAt := 0; Song.updatedAt := updated |}.

Definition minutes (n : Z) : Z := n * 60 * 1000.

(** A table with two stale songs and a fresh one, at the instant 100 min. *)
Definition sample_world : World :=
  {| now := minutes 100;
     Songs := [ song 1 "abc123" 100 10 (minutes 89);
                song 2 "xyz789" 7 0 (minutes 50);
                song 3 "fresh01" 5 1 (minutes 91) ];
     kv := ∅;
     trace := [] |}.

(** Every service answers; the extractor knows [abc123] (150 views, 12
    likes), a video with 0 views and no like count, and fails on the rest. *)
Definition sample_extractor (url : string) (t : Z) : Settled Metadata :=
  if decide (url = watch_url "abc123") then
    Resolves {| view_count := JNumber 150; like_count := JNumber 12 |} 500
  else if decide (url = watch_url "zero000") then
    Resolves {| view_count := JNumber 0; like_count := JUndefined |} 0
  else Rejects (Failure "ETIMEDOUT") 7.

Definition env_up : Env :=
  {| youtubedl_reply := sample_extractor;
     redis_reply := λ _ _ _, Resolves tt 1;
     update_reply := λ _ _ _, Resolves tt 2;
     findAll_reply := λ _, Resolves tt 3;
     timer_lag := λ _, 0%N |}.

(** The same table without the fresh song. *)
Definition stale_world : World :=
  {| now := minutes 100;
     Songs := [ song 1 "abc123" 100 10 (minutes 89); song 2 "xyz789" 7 0 (minutes 50) ];
     kv := ∅;
     trace := [] |}.

(** The world a tick leaves when started on [stale_world] with [Op] bound
    and every service answering, and the same table 100 minutes later. *)
Definition stale_world_after : World :=
  Eval vm_compute in world_of (try_block env_up Sequelize_Op stale_world).

Definition stale_world_later : World :=
  {| now := minutes 200; Songs := Songs stale_world_after; kv := ∅; trace := [] |}.

(** The songs a tick started on the sample world selects, and what the
    sample extractor says of them. *)
Definition sample_selection : list Song.t :=
  filter (stale (now sample_world)) (Songs sample_world).

Definition sample_metrics (y : string) : Stats :=
  if decide (y = "abc123") then {| views := "150"; likes := "12" |} else sentinel.

(** The durable store refuses every write. *)
Definition env_storage_down : Env :=
  {| youtubedl_reply := sample_extractor;
     redis_reply := λ _ _ _, Resolves tt 1;
     update_reply := λ _ _ _, Rejects (Failure "SQLITE_BUSY") 2;
     findAll_reply := λ _, Resolves tt 3;
     timer_lag := λ _, 0%N |}.

(** Redis refuses every write. *)
Definition env_cache_down : Env :=
  {| youtubedl_reply := sample_extractor;
     redis_reply := λ _ _ _, Rejects (Failure "ECONNREFUSED") 1;
     update_reply := λ _ _ _, Resolves tt 2;
     findAll_reply := λ _, Resolves tt 3;
     timer_lag := λ _, 0%N |}.

(** The extractor never answers. *)
Definition env_silent : Env :=
  {| youtubedl_reply := λ _ _, NeverSettles;
     redis_reply := λ _ _ _, Resolves tt 1;
     update_reply := λ _ _ _, Resolves tt 2;
     findAll_reply := λ _, Resolves tt 3;
     timer_lag := λ _, 0%N |}.

(** * The download service (src/models/Song.js, from line 37 on)

    The second module kept in that file: an HTTP wrapper around yt-dlp with
    a download directory that is cleaned every hour.  Its helpers work on
    JavaScript strings, modelled here as lists of UTF-16 code units. *)

Module Ytdlp.

(** The code units of an ASCII literal. *)
Fixpoint units (s : string) : list N :=
  match s with
  | EmptyString => []
  | String c rest => N_of_ascii c :: units rest
  end.

(** The character class of line 110: slash, backslash, question mark,
    percent, asterisk, colon, vertical bar, double quote, less-than and
    greater-than. *)
Definition is_forbidden (c : N) : bool :=
  bool_decide (c ∈ [47; 92; 63; 37; 42; 58; 124; 34; 60; 62]%N).

(** The class [\s] of a regular expression, which is also what [trim]
    strips: ECMAScript's WhiteSpace and LineTerminator code points. *)
Definition is_space (c : N) : bool :=
  bool_decide (c ∈ [9; 10; 11; 12; 13; 32; 160; 5760; 8232; 8233; 8239; 8287; 12288; 65279]%N)
  || ((8192 <=? c)%N && (c <=? 8202)%N).

(** The first [replace] of line 110: every character of that class goes. *)
Definition strip_forbidden (s : list N) : list N :=
  List.filter (λ c, negb (is_forbidden c)) s.

(** [.replace(/\s+/g, " ")]: every maximal run of white space becomes one
    U+0020.  [in_run] tells that the unit before was white space. *)
Fixpoint collapse_spaces (in_run : bool) (s : list N) : list N :=
  match s with
  | [] => []
  | c :: rest =>
      if is_space c
      then (if in_run then collapse_spaces true rest else 32%N :: collapse_spaces true rest)
      else c :: collapse_spaces false rest
  end.

Fixpoint trim_start (s : list N) : list N :=
  match s with
  | [] => []
  | c :: rest => if is_space c then trim_start rest else s
  end.

Fixpoint trim_end (s : list N) : list N :=
  match s with
  | [] => []
  | c :: rest =>
      match trim_end rest with
      | [] => if is_space c then [] else [c]
      | kept => c :: kept
      end
  end.

(** [.trim()] *)
Definition trim (s : list N) : list N := trim_end (trim_start s).

(** [a || b] for operands that are strings or [undefined]. *)
Definition or_string (a b : option (list N)) : option (list N) :=
  match a with
  | Some (_ :: _) => a
  | Some [] | None => b
  end.

(** [safeBasename(s, fallback)], lines 107-114. *)
Definition safeBasename (s fallback : option (list N)) : list N :=
  let picked :=
    match or_string (or_string s fallback) (Some (units "file")) with
    | Some p => p
    | None => []
    end in
  let cleaned := trim (collapse_spaces false (strip_forbidden picked)) in
  match cleaned with
  | [] => units "file"
  | _ :: _ => cleaned
  end.

(** White space is tidy in [s]: every white-space unit is a U+0020 and no
    two of them are adjacent; [after_space] tells that a white-space unit
    precedes [s]. *)
Fixpoint single_spaced (after_space : bool) (s : list N) : Prop :=
  match s with
  | [] => True
  | c :: rest =>
      if is_space c
      then c = 32%N ∧ after_space = false ∧ single_spaced true rest
      else single_spaced false rest
  end.

(** A name [safeBasename] has nothing to do on. *)
Definition tidy_name (s : list N) : Prop :=
  s ≠ []
  ∧ (∀ c, c ∈ s → is_forbidden c = false)
  ∧ single_spaced false s
  ∧ (∀ c, head s = Some c → is_space c = false)
  ∧ (∀ c, last s = Some c → is_space c = false).

(** The template literal [`${title || id || dflt}-${id || Date.now()}`] of
    the three download helpers; [title] and [id] are [meta?.title] and
    [meta?.id]. *)
Definition name_template (dflt : string) (title id : option (list N)) (now : Z) : list N :=
  let first :=
    match or_string (or_string title id) (Some (units dflt)) with
    | Some p => p
    | None => []
    end in
  let second :=
    match or_string id None with
    | Some p => p
    | None => units (pretty now)
    end in
  first ++ units "-" ++ second.

Inductive Result (A : Type) :=
| Ok (a : A)
| Thrown (message : string).
Arguments Ok {A} a.
Arguments Thrown {A} message.

(** [files.find(f => f.startsWith(baseName) && f.endsWith(ext))
     || files.find(f => f.startsWith(baseName))] *)
Definition find_produced (ext baseName : list N) (files : list (list N)) : option (list N) :=
  or_string
    (snd <$> list_find (λ f, baseName `prefix_of` f ∧ ext `suffix_of` f) files)
    (snd <$> list_find (λ f, baseName `prefix_of` f) files).

(** The common shape of [downloadAudioMP3], [downloadAudioM4A] and
    [downloadVideoMP4]: [run] is how the awaited yt-dlp call ended,
    [listing] what [fs.readdir(DOWNLOAD_DIR)] then gave. *)
Definition download (dflt ext what : string)
    (title id : option (list N)) (now : Z)
    (run : Result unit) (listing : Result (list (list N))) : Result (list N) :=
  let baseName := safeBasename (Some (name_template dflt title id now)) None in
  match run with
  | Thrown m => Thrown m
  | Ok _ =>
      match listing with
      | Thrown m => Thrown m
      | Ok files =>
          match find_produced (units ext) baseName files with
          | Some (c :: f) => Ok (c :: f)
          | Some [] | None => Thrown (what +:+ " file not found after download")
          end
      end
  end.

(** Lines 116-139. *)
Definition downloadAudioMP3 := download "audio" ".mp3" "Audio".

(** Lines 141-173. *)
Definition downloadAudioM4A := download "audio" ".m4a" "Audio".

(** Lines 175-200. *)
Definition downloadVideoMP4 := download "video" ".mp4" "Video".

(** *** [cleanupDownloads], lines 324-351 *)

(** What [fs.stat] answers for an entry: it throws, or it tells whether the
    entry is a regular file and its [mtimeMs], a number of milliseconds that
    may carry a fraction. *)
Inductive StatResult :=
| StatThrows
| Stat (isFile : bool) (mtimeMs : Q).

(** The download directory as the job sees it: the listing, and for each
    name what [stat] answers and whether [unlink] succeeds. *)
Record Directory := {
  listing : Result (list (list N));
  stat : list N → StatResult;
  unlink_succeeds : list N → bool
}.

(** [now - st.mtimeMs > MAX_FILE_AGE_MS]; the limit is the result of
    [parseInt], an integer or [NaN] ([None]), and a comparison with [NaN] is
    false. *)
Definition older_than (limit : option Z) (now : Z) (mtimeMs : Q) : bool :=
  match limit with
  | Some max => negb (Qle_bool (inject_Z now - mtimeMs) (inject_Z max))
  | None => false
  end.

(** The test of the loop body: [stat] did not throw, the entry is a file,
    and it is old enough. *)
Definition selected (limit : option Z) (now : Z) (st : StatResult) : bool :=
  match st with
  | StatThrows => false
  | Stat isFile mtimeMs => isFile && older_than limit now mtimeMs
  end.

(** What a run of the job did: the names it called [unlink] on, those whose
    [unlink] succeeded, the number in its log line if it wrote one, and the
    warning if it wrote one. *)
Record Report := {
  toDelete : list (list N);
  removed : list (list N);
  logged : option nat;
  warned : option string
}.

Definition cleanupDownloads (limit : option Z) (now : Z) (dir : Directory) : Report :=
  match listing dir with
  | Thrown m =>
      {| toDelete := []; removed := []; logged := None; warned := Some m |}
  | Ok files =>
      let chosen := List.filter (λ f, selected limit now (stat dir f)) files in
      {| toDelete := chosen;
         removed := List.filter (unlink_succeeds dir) chosen;
         logged := if decide (length chosen = 0%nat) then None else Some (length chosen);
         warned := None |}
  end.

End Ytdlp.

(** * The admin panel (src/index.js, lines 87-223)

    The routes of the Express application over the three tables, for one
    client, with the fields of each form present as strings.  What depends
    on the store or on bcrypt is left to the [Backend]. *)

(** A row of [Users], as src/index.js uses it. *)
Module User.
Record t := mk { id : Z; username : string; passwordHash : string }.
End User.

(** A row of [Playlists] (src/models/Playlist.js). *)
Module Playlist.
Record t := mk { id : Z; name : string; cover : string }.
End Playlist.

(** One song of the answer of [/api/playlists], lines 134-141. *)
Module ApiSong.
Record t := mk {
  Artist : string;
  title : string;
  cover : string;
  youtubeid : string;
  views : cell;
  likes : cell
}.
End ApiSong.

(** One playlist of that answer, lines 131-142. *)
Module ApiPlaylist.
Record t := mk { name : string; cover : string; Songs : list ApiSong.t }.
End ApiPlaylist.

Module Admin.

(** What the application cannot decide by itself: bcrypt, whose [hash]
    draws a salt (taken here from the instant of the call); whether the
    store answers the statements of the request served at an instant or
    rejects one of them; and the two statements of [/admin/delete-playlist]
    on the [Songs] table, the second of which names a column [playlist] the
    model of src/models/Song.js does not declare. *)
Record Backend := {
  compare : string → string → bool;
  hash : string → Z → string;
  store_answers : Z → bool;
  songs_after_delete_playlist : string → list Playlist.t → list Song.t → list Song.t;
  delete_playlist_answers : string → bool
}.

(** The tables, each with the last id its auto-increment gave. *)
Record Db := {
  Users : list User.t;
  Playlists : list Playlist.t;
  Songs : list Song.t;
  last_user_id : Z;
  last_playlist_id : Z;
  last_song_id : Z
}.

(** The store and the session of one client. *)
Record App := { db : Db; userId : option Z }.

Inductive Request :=
| GET_index
| GET_mediaplayer
| GET_admin_login
| GET_admin
| GET_api_playlists
| POST_admin_login (username password : string)
| POST_admin_add_song (Artist title cover youtubeid playlist : string)
| POST_admin_delete_song (youtubeid : string)
| POST_admin_add_playlist (name cover : string)
| POST_admin_delete_playlist (name : string)
| GET_admin_playlists
| POST_admin_update_password (newPassword : string).

Inductive Response :=
| Render (view : string) (playlists : list (Playlist.t * list Song.t))
| RenderPage (view : string)
| Redirect (path : string)
| Send (status : Z) (body : string)
| Json_formatted (playlists : list ApiPlaylist.t)
| Json_playlists (playlists : list Playlist.t)
| Unanswered (error : string).

(** What becomes of a request whose handler rejects outside a [catch]. *)
Definition rejected : Response := Unanswered "SequelizeDatabaseError".

(** [req.session.userId] as a condition: a missing id and the id 0 are
    falsy. *)
Definition truthy (id : option Z) : bool :=
  match id with
  | Some n => negb (n =? 0)
  | None => false
  end.

(** [isAuthenticated(req, res, next)], lines 102-105. *)
Definition isAuthenticated (st : App) (next : App → App * Response) : App * Response :=
  if truthy (userId st) then next st else (st, Redirect "/admin/login").

(** [User.findOne({ where: { username } })] *)
Definition User_findOne (username : string) (users : list User.t) : option User.t :=
  snd <$> list_find (λ u, User.username u = username) users.

(** [User.findByPk(id)] *)
Definition User_findByPk (id : option Z) (users : list User.t) : option User.t :=
  match id with
  | Some n => snd <$> list_find (λ u, User.id u = n) users
  | None => None
  end.

(** [Playlist.findOne({ where: { name } })] *)
Definition Playlist_findOne (name : string) (playlists : list Playlist.t) : option Playlist.t :=
  snd <$> list_find (λ p, Playlist.name p = name) playlists.

(** [Playlist.findAll({ include: { model: Song, as: 'Songs' } })] *)
Definition Playlist_findAll_with_Songs (d : Db) : list (Playlist.t * list Song.t) :=
  (λ p, (p, filter (λ s, Song.playlistId s = Playlist.id p) (Songs d))) <$> Playlists d.

(** The [formatted] value of lines 131-142. *)
Definition formatted (playlists : list (Playlist.t * list Song.t)) : list ApiPlaylist.t :=
  (λ '(p, songs),
     {| ApiPlaylist.name := Playlist.name p;
        ApiPlaylist.cover := Playlist.cover p;
        ApiPlaylist.Songs :=
          (λ s, {| ApiSong.Artist := Song.Artist s;
                   ApiSong.title := Song.title s;
                   ApiSong.cover := Song.cover s;
                   ApiSong.youtubeid := Song.youtubeid s;
                   ApiSong.views := Song.views s;
                   ApiSong.likes := Song.likes s |}) <$> songs |}) <$> playlists.

Definition with_Users (users : list User.t) (last : Z) (d : Db) : Db :=
  {| Users := users; Playlists := Playlists d; Songs := Songs d;
     last_user_id := last; last_playlist_id := last_playlist_id d;
     last_song_id := last_song_id d |}.

Definition with_Playlists (playlists : list Playlist.t) (last : Z) (d : Db) : Db :=
  {| Users := Users d; Playlists := playlists; Songs := Songs d;
     last_user_id := last_user_id d; last_playlist_id := last;
     last_song_id := last_song_id d |}.

Definition with_Songs (songs : list Song.t) (last : Z) (d : Db) : Db :=
  {| Users := Users d; Playlists := Playlists d; Songs := songs;
     last_user_id := last_user_id d; last_playlist_id := last_playlist_id d;
     last_song_id := last |}.

(** [Song.create({ Artist, title, cover, youtubeid, playlistId })]: the
    counters take the defaults of the model, the timestamps the instant of
    the call. *)
Definition Song_create (now : Z) (Artist title cover youtubeid : string) (playlistId : Z)
    (d : Db) : Db :=
  let row :=
    {| Song.id := last_song_id d + 1; Song.Artist := Artist; Song.title := title;
       Song.cover := cover; Song.youtubeid := youtubeid;
       Song.views := CInt 0; Song.likes := CInt 0;
       Song.playlistId := playlistId; Song.createdAt := now; Song.updatedAt := now |} in
  with_Songs (Songs d ++ [row]) (last_song_id d + 1) d.

(** [Song.destroy({ where: { youtubeid } })] *)
Definition Song_destroy (youtubeid : string) (d : Db) : Db :=
  with_Songs (filter (λ s, Song.youtubeid s ≠ youtubeid) (Songs d)) (last_song_id d) d.

(** [Playlist.create({ name, cover })] *)
Definition Playlist_create (name cover : string) (d : Db) : Db :=
  with_Playlists
    (Playlists d ++ [ {| Playlist.id := last_playlist_id d + 1;
                         Playlist.name := name; Playlist.cover := cover |} ])
    (last_playlist_id d + 1) d.

(** [User.create({ username, passwordHash })] *)
Definition User_create (username passwordHash : string) (d : Db) : Db :=
  with_Users
    (Users d ++ [ {| User.id := last_user_id d + 1;
                     User.username := username; User.passwordHash := passwordHash |} ])
    (last_user_id d + 1) d.

(** [user.passwordHash = ...; await user.save()] *)
Definition User_save_hash (id : Z) (passwordHash : string) (d : Db) : Db :=
  with_Users
    ((λ u, if decide (User.id u = id)
           then {| User.id := User.id u; User.username := User.username u;
                   User.passwordHash := passwordHash |}
           else u) <$> Users d)
    (last_user_id d) d.

(** The handler of [POST /admin/login], lines 148-157. *)
Definition login (bk : Backend) (username password : string) (st : App) : App * Response :=
  match User_findOne username (Users (db st)) with
  | Some user =>
      if compare bk password (User.passwordHash user)
      then ({| db := db st; userId := Some (User.id user) |}, Redirect "/admin")
      else (st, Send 200 "Invalid credentials")
  | None => (st, Send 200 "Invalid credentials")
  end.

(** The handler of [POST /admin/add-song], lines 159-181. *)
Definition add_song (now : Z) (Artist title cover youtubeid playlist : string)
    (st : App) : App * Response :=
  match Playlist_findOne playlist (Playlists (db st)) with
  | None => (st, Send 400 "Playlist not found")
  | Some playlistRecord =>
      ({| db := Song_create now Artist title cover youtubeid (Playlist.id playlistRecord) (db st);
          userId := userId st |},
       Redirect "/admin")
  end.

(** The handler of [POST /admin/update-password], lines 206-212: without a
    user of the session's id the assignment throws. *)
Definition update_password (bk : Backend) (now : Z) (newPassword : string)
    (st : App) : App * Response :=
  match User_findByPk (userId st) (Users (db st)) with
  | None => (st, Unanswered "TypeError")
  | Some user =>
      ({| db := User_save_hash (User.id user) (hash bk newPassword now) (db st);
          userId := userId st |},
       Redirect "/admin")
  end.

(** The handler of [POST /admin/delete-playlist], lines 194-199, once the
    store has taken its first statement. *)
Definition delete_playlist (bk : Backend) (name : string) (st : App) : App * Response :=
  let d := db st in
  let d' :=
    with_Songs (songs_after_delete_playlist bk name (Playlists d) (Songs d)) (last_song_id d)
      (with_Playlists (filter (λ p, Playlist.name p ≠ name) (Playlists d))
         (last_playlist_id d) d) in
  ({| db := d'; userId := userId st |},
   if delete_playlist_answers bk name then Redirect "/admin" else rejected).

(** An [async] handler whose statements the store may reject: the handlers
    without a [catch] then leave the request unanswered, the one of
    [/admin/add-song] answers 500 (lines 177-180). *)
Definition querying (bk : Backend) (now : Z) (on_error : Response)
    (handler : App → App * Response) (st : App) : App * Response :=
  if store_answers bk now then handler st else (st, on_error).

(** The routes of the application, each with its middleware. *)
Definition handle (bk : Backend) (now : Z) (req : Request) (st : App) : App * Response :=
  match req with
  | GET_index =>
      querying bk now rejected
        (λ st, (st, Render "index" (Playlist_findAll_with_Songs (db st)))) st
  | GET_mediaplayer => (st, RenderPage "mediaplayer")
  | GET_admin_login => (st, RenderPage "login")
  | GET_admin =>
      isAuthenticated st
        (querying bk now rejected
           (λ st, (st, Render "admin" (Playlist_findAll_with_Songs (db st)))))
  | GET_api_playlists =>
      querying bk now rejected
        (λ st, (st, Json_formatted (formatted (Playlist_findAll_with_Songs (db st))))) st
  | POST_admin_login username password =>
      querying bk now rejected (login bk username password) st
  | POST_admin_add_song Artist title cover youtubeid playlist =>
      isAuthenticated st
        (querying bk now (Send 500 "Internal Server Error")
           (add_song now Artist title cover youtubeid playlist))
  | POST_admin_delete_song youtubeid =>
      isAuthenticated st
        (querying bk now rejected
           (λ st, ({| db := Song_destroy youtubeid (db st); userId := userId st |},
                   Redirect "/admin")))
  | POST_admin_add_playlist name cover =>
      isAuthenticated st
        (querying bk now rejected
           (λ st, ({| db := Playlist_create name cover (db st); userId := userId st |},
                   Redirect "/admin")))
  | POST_admin_delete_playlist name =>
      isAuthenticated st (querying bk now rejected (delete_playlist bk name))
  | GET_admin_playlists =>
      isAuthenticated st
        (querying bk now rejected (λ st, (st, Json_playlists (Playlists (db st)))))
  | POST_admin_update_password newPassword =>
      isAuthenticated st (querying bk now rejected (update_password bk now newPassword))
  end.

(** The routes registered with [isAuthenticated]. *)
Definition guarded (req : Request) : bool :=
  match req with
  | GET_admin | POST_admin_add_song _ _ _ _ _ | POST_admin_delete_song _
  | POST_admin_add_playlist _ _ | POST_admin_delete_playlist _
  | GET_admin_playlists | POST_admin_update_password _ => true
  | _ => false
  end.

(** Requests of one client served one after the other, each at its instant. *)
Fixpoint serve (bk : Backend) (reqs : list (Z * Request)) (st : App) : App * list Response :=
  match reqs with
  | [] => (st, [])
  | (now, req) :: rest =>
      let '(st1, answer) := handle bk now req st in
      let '(st2, answers) := serve bk rest st1 in
      (st2, answer :: answers)
  end.

(** The first-time setup, lines 215-223. *)
Definition setup (bk : Backend) (now : Z) (d : Db) : Db :=
  if store_answers bk now then
    match User_findOne "admin" (Users d) with
    | Some _ => d
    | None => User_create "admin" (hash bk "admin" now) d
    end
  else d.

(** The credentials a login accepts on a table of users. *)
Definition accepted (bk : Backend) (users : list User.t) (username password : string) : Prop :=
  ∃ user, User_findOne username users = Some user
          ∧ compare bk password (User.passwordHash user) = true.

(** The session's id, when there is one, is the id of a user of the table. *)
Definition session_has_user (st : App) : Prop :=
  ∀ n, userId st = Some n → ∃ u, u ∈ Users (db st) ∧ User.id u = n.

End Admin.

(** ** Sample directory, backend and stores *)

(** A directory with a file of exactly the age limit, an older file that
    cannot be unlinked, an old subdirectory and an entry [stat] fails on. *)
Definition sample_directory : Ytdlp.Directory :=
  {| Ytdlp.listing :=
       Ytdlp.Ok [ Ytdlp.units "hour.mp3"; Ytdlp.units "busy.mp3";
                  Ytdlp.units "old"; Ytdlp.units "gone" ];
     Ytdlp.stat := λ f,
       if decide (f = Ytdlp.units "hour.mp3") then Ytdlp.Stat true (inject_Z 6400000)
       else if decide (f = Ytdlp.units "busy.mp3") then Ytdlp.Stat true (1 # 2)
       else if decide (f = Ytdlp.units "old") then Ytdlp.Stat false 0
       else Ytdlp.StatThrows;
     Ytdlp.unlink_succeeds := λ _, false |}.

(** A backend whose hash is the password after a fixed prefix, whose
    store answers, and whose [/admin/delete-playlist] stops at its second
    statement and leaves the songs. *)
Definition sample_backend : Admin.Backend :=
  {| Admin.compare := λ password passwordHash,
       bool_decide (passwordHash = "$2b$10$" +:+ password);
     Admin.hash := λ password _, "$2b$10$" +:+ password;
     Admin.store_answers := λ _, true;
     Admin.songs_after_delete_playlist := λ _ _ songs, songs;
     Admin.delete_playlist_answers := λ _, false |}.

(** The store of a first start, before the setup. *)
Definition empty_db : Admin.Db :=
  {| Admin.Users := []; Admin.Playlists := []; Admin.Songs := [];
     Admin.last_user_id := 0; Admin.last_playlist_id := 0; Admin.last_song_id := 0 |}.

(** A store with the default admin, two playlists and the sample songs, all
    in the first playlist. *)
Definition sample_db : Admin.Db :=
  {| Admin.Users := [ User.mk 1 "admin" "$2b$10$admin" ];
     Admin.Playlists := [ Playlist.mk 1 "Chill" "chill.png"; Playlist.mk 2 "Rock" "rock.png" ];
     Admin.Songs := Songs sample_world;
     Admin.last_user_id := 1; Admin.last_playlist_id := 2; Admin.last_song_id := 3 |}.

Definition anonymous : Admin.App := {| Admin.db := sample_db; Admin.userId := None |}.

Definition logged_in : Admin.App := {| Admin.db := sample_db; Admin.userId := Some 1 |}.

(** ** Decimal text of a count *)

Lemma string_app_assoc (a b c : string) : (a +:+ b) +:+ c = a +:+ (b +:+ c).
Proof.
  induction a as [|x a IH]; [done|].
  change (String x ((a +:+ b) +:+ c) = String x (a +:+ b +:+ c)). by f_equal.
Qed.

Lemma pretty_N_go_suffix (x : N) (s : string) : ∃ p, pretty_N_go x s = p +:+ s.
Proof.
  revert s. induction (N.lt_wf_0 x) as [x _ IH]; intros s.
  destruct (decide (x = 0%N)) as [->|Hx].
  - exists "". by rewrite pretty_N_go_0.
  - rewrite pretty_N_go_step by lia.
    destruct (IH (x `div` 10)%N) with (s := String (pretty_N_char (x `mod` 10)) s) as [p Hp].
    { apply N.div_lt; lia. }
    exists (p +:+ String (pretty_N_char (x `mod` 10)) ""). by rewrite string_app_assoc.
Qed.

Lemma pretty_pos_last (x : positive) :
  ∃ p d, pretty x = p +:+ String (pretty_N_char d) "".
Proof.
  unfold pretty, pretty_positive, pretty, pretty_N.
  rewrite decide_False by done. rewrite pretty_N_go_step by lia.
  destruct (pretty_N_go_suffix (N.pos x `div` 10) (String (pretty_N_char (N.pos x `mod` 10)) ""))
    as [p Hp].
  eauto.
Qed.

Lemma digit_not_A d : pretty_N_char d ≠ "A"%char.
Proof. unfold pretty_N_char. repeat case_match; discriminate. Qed.

Lemma ends_with_digit_nonempty p d : p +:+ String (pretty_N_char d) "" ≠ "".
Proof. by destruct p. Qed.

Lemma ends_with_digit_not_NA p d : p +:+ String (pretty_N_char d) "" ≠ "N/A".
Proof.
  intros H. destruct p as [|c1 [|c2 [|c3 [|c4 p]]]]; simpl in H; try discriminate.
  injection H as _ _ H. by apply digit_not_A in H.
Qed.

Lemma pretty_Z_nonempty (n : Z) : pretty n ≠ "".
Proof.
  destruct n as [|x|x]; unfold pretty, pretty_Z; [done| |done].
  destruct (pretty_pos_last x) as (p & d & ->). apply ends_with_digit_nonempty.
Qed.

Lemma pretty_Z_not_NA (n : Z) : pretty n ≠ "N/A".
Proof.
  destruct n as [|x|x]; unfold pretty, pretty_Z; [done| |done].
  destruct (pretty_pos_last x) as (p & d & ->). apply ends_with_digit_not_NA.
Qed.

(** ** [fetchYouTubeStats] *)

Lemma or_else_decimal (v : jsval) :
  or_else (optional_toString v) "N/A" = decimal_or_sentinel v.
Proof.
  destruct v as [| |n]; simpl; try done.
  by rewrite decide_False by apply pretty_Z_nonempty.
Qed.

(** The helper unfolded once: what it does for each way the extractor call
    can settle. *)
Lemma fetchYouTubeStats_unfold env y w :
  fetchYouTubeStats env y w =
    let w1 := emit (Ev_youtubedl (watch_url y)) w in
    match youtubedl_reply env (watch_url y) (now w) with
    | Resolves data ms =>
        Returned {| views := decimal_or_sentinel (view_count data);
                    likes := decimal_or_sentinel (like_count data) |} (advance ms w1)
    | Rejects e ms => Returned sentinel (emit (Ev_error_fetch y e) (advance ms w1))
    | NeverSettles => Pending w1
    end.
Proof.
  unfold fetchYouTubeStats, try_catch, bind, youtubedl, await, console, ret.
  destruct (youtubedl_reply env (watch_url y) (now w)) as [data ms|e ms|]; simpl; try done.
  by rewrite !or_else_decimal.
Qed.

Lemma fetchYouTubeStats_returned env y w stats w1 :
  fetchYouTubeStats env y w = Returned stats w1 →
  stats_of_reply (youtubedl_reply env (watch_url y) (now w)) = Some stats
  ∧ Songs w1 = Songs w ∧ kv w1 = kv w ∧ now w ≤ now w1.
Proof.
  rewrite fetchYouTubeStats_unfold.
  destruct (youtubedl_reply _ _ _) as [data ms|e ms|]; simpl; intros [= <- <-]; simpl;
    repeat split; lia.
Qed.

(** C5 (as amended): no timer bounds the extractor call.  The helper never
    throws; it stays pending exactly when the extractor never answers; and
    when the extractor settles after [ms] milliseconds, whatever [ms] is,
    the helper returns after exactly that long, with the sentinel if the
    call was rejected. *)
Theorem C5_fetch_lasts_as_long_as_the_extractor env y w :
  let reply := youtubedl_reply env (watch_url y) (now w) in
  let o := fetchYouTubeStats env y w in
  (∀ e w', o ≠ Threw e w')
  ∧ (reply = NeverSettles ↔ is_returned o = false)
  ∧ (∀ data ms, reply = Resolves data ms →
       returned o = stats_of_reply reply ∧ now (world_of o) = now w + Z.of_N ms)
  ∧ (∀ e ms, reply = Rejects e ms →
       returned o = Some sentinel ∧ now (world_of o) = now w + Z.of_N ms).
Proof.
  cbv zeta. rewrite fetchYouTubeStats_unfold.
  destruct (youtubedl_reply _ _ _) as [data ms|e ms|]; simpl;
    repeat split; try done; intros; simplify_eq; done.
Qed.

(** C5, the claim as stated, fails: with an extractor that never answers the
    call is still pending, it has not resolved to any result. *)
Lemma C5_silent_extractor_hangs_the_fetch :
  youtubedl_reply env_silent (watch_url "abc123") (now sample_world) = NeverSettles
  ∧ fetchYouTubeStats env_silent "abc123" sample_world
    = Pending (emit (Ev_youtubedl (watch_url "abc123")) sample_world)
  ∧ returned (fetchYouTubeStats env_silent "abc123" sample_world) = None.
Proof. by vm_compute. Qed.

(** C6 (as amended): on a successful fetch each counter is coerced on its
    own: a count that is there, 0 included, becomes its decimal text; a
    missing or null one becomes the text N/A, which is the text of no
    count, and in particular not that of zero. *)
Theorem C6_counters_coerced_independently env y w data ms :
  youtubedl_reply env (watch_url y) (now w) = Resolves data ms →
  ∃ stats,
    returned (fetchYouTubeStats env y w) = Some stats
    ∧ (∀ n, view_count data = JNumber n → views stats = pretty n)
    ∧ (∀ n, like_count data = JNumber n → likes stats = pretty n)
    ∧ (view_count data = JUndefined ∨ view_count data = JNull → views stats = "N/A")
    ∧ (like_count data = JUndefined ∨ like_count data = JNull → likes stats = "N/A")
    ∧ (view_count data = JNumber 0 → views stats = "0")
    ∧ (like_count data = JNumber 0 → likes stats = "0")
    ∧ (∀ n : Z, pretty n ≠ "N/A").
Proof.
  intros Hreply. rewrite fetchYouTubeStats_unfold, Hreply. simpl.
  eexists; split; [done|]. simpl.
  repeat split; try (intros n ->; done); try (intros [-> | ->]; done);
    try (intros ->; done).
  apply pretty_Z_not_NA.
Qed.

(** C6 on a video with 0 views and no like count. *)
Lemma C6_sample_zero_views_no_likes :
  ∃ stats,
    returned (fetchYouTubeStats env_up "zero000" sample_world) = Some stats
    ∧ views stats = "0" ∧ likes stats = "N/A".
Proof.
  destruct (C6_counters_coerced_independently env_up "zero000" sample_world
              {| view_count := JNumber 0; like_count := JUndefined |} 0 eq_refl)
    as (stats & Hret & Hviews & _ & _ & Hlikes & _).
  exists stats. split; [exact Hret|].
  split; [exact (Hviews 0 eq_refl) | apply Hlikes; by left].
Defined.

(** C6, the claim as stated, fails on the text of the sentinel: a video with
    0 views and no like count yields views 0 and likes N/A, not unknown. *)
Lemma C6_missing_counter_is_not_unknown :
  youtubedl_reply env_up (watch_url "zero000") (now sample_world)
    = Resolves {| view_count := JNumber 0; like_count := JUndefined |} 0
  ∧ returned (fetchYouTubeStats env_up "zero000" sample_world)
    = Some {| views := "0"; likes := "N/A" |}
  ∧ returned (fetchYouTubeStats env_up "zero000" sample_world)
    ≠ Some {| views := "0"; likes := "unknown" |}.
Proof. by vm_compute. Qed.

(** ** One iteration of the loop *)

Lemma Stats_eta (s : Stats) : {| views := views s; likes := likes s |} = s.
Proof. by destruct s. Qed.

Lemma process_song_unfold env song w :
  process_song env song w =
    let y := Song.youtubeid song in
    match fetchYouTubeStats env y w with
    | Returned stats w1 =>
        match redis_set env (cache_key y) (JSON_stringify stats) 60 w1 with
        | Returned _ w2 =>
            match Song_update env stats y w2 with
            | Returned _ w3 =>
                sleep env COOLDOWN_MS (emit (Ev_log_updated (now w3) y (COOLDOWN_MS / 1000)) w3)
            | Threw e w3 => Threw e w3
            | Pending w3 => Pending w3
            end
        | Threw e w2 => Threw e w2
        | Pending w2 => Pending w2
        end
    | Threw e w1 => Threw e w1
    | Pending w1 => Pending w1
    end.
Proof.
  unfold process_song, bind. cbv zeta.
  destruct (fetchYouTubeStats _ _ _) as [stats w1| |]; try done.
  rewrite Stats_eta.
  destruct (redis_set _ _ _ _ _) as [[] w2| |]; done.
Qed.

(** Case analysis on the three awaited replies of one iteration. *)
Ltac on_reply f :=
  match goal with
  | |- context [f ?env ?a ?b ?c] =>
      destruct (f env a b c) as [[] ?ms|?e ?ms|] eqn:?Hreply; simpl
  end.

Ltac iteration env song w :=
  rewrite (process_song_unfold env song w); cbv zeta;
  rewrite fetchYouTubeStats_unfold; cbv zeta;
  destruct (youtubedl_reply env _ _) as [?data ?ms|?e ?ms|] eqn:?Hfetch; simpl;
  [ unfold redis_set; simpl; on_reply redis_reply;
    [ unfold Song_update; simpl; on_reply update_reply; [ unfold sleep; simpl | .. ] | .. ]
  | unfold redis_set; simpl; on_reply redis_reply;
    [ unfold Song_update; simpl; on_reply update_reply; [ unfold sleep; simpl | .. ] | .. ]
  | ].

Lemma process_song_clock env song w :
  let o := process_song env song w in
  now w ≤ now (world_of o)
  ∧ (is_returned o = true → now w + COOLDOWN_MS ≤ now (world_of o)).
Proof.
  cbv zeta.
  iteration env song w; split; try done; try lia; intros _; vm_compute timer_delay;
    unfold COOLDOWN_MS; lia.
Qed.

Lemma count_app p (a b : list Event) : count p (a ++ b) = (count p a + count p b)%nat.
Proof. unfold count. by rewrite List.filter_app, length_app. Qed.

Lemma count_nil p : count p [] = 0%nat.
Proof. reflexivity. Qed.

Lemma count_cons p ev (tr : list Event) :
  count p (ev :: tr) = ((if p ev then 1 else 0) + count p tr)%nat.
Proof. unfold count. simpl. by destruct (p ev). Qed.

(** The calls of one iteration: the extractor first and only once; when the
    iteration runs to its end, one log line and, last, one sleep of
    [COOLDOWN_MS]; no sleep and no log line when it does not. *)
Lemma process_song_trace env song w :
  let o := process_song env song w in
  ∃ mid,
    trace (world_of o) = trace w ++ Ev_youtubedl (watch_url (Song.youtubeid song)) :: mid
    ∧ count is_fetch mid = 0%nat
    ∧ if is_returned o
      then last mid = Some (Ev_sleep COOLDOWN_MS)
           ∧ count is_cooldown mid = 1%nat ∧ count is_log_updated mid = 1%nat
      else count is_cooldown mid = 0%nat ∧ count is_log_updated mid = 0%nat.
Proof.
  cbv zeta.
  iteration env song w; rewrite <- ?app_assoc; simpl;
    (eexists; split; [reflexivity|]); by vm_compute.
Qed.

(** The table after one iteration: written once, with what the extractor
    call gave, when the iteration ran to its end; untouched when it did not. *)
Lemma process_song_Songs env song w :
  let o := process_song env song w in
  let y := Song.youtubeid song in
  (is_returned o = false ∧ Songs (world_of o) = Songs w)
  ∨ (is_returned o = true
     ∧ ∃ stats t,
         stats_of_reply (youtubedl_reply env (watch_url y) (now w)) = Some stats
         ∧ now w ≤ t
         ∧ Songs (world_of o) = update_where stats y t <$> Songs w).
Proof.
  cbv zeta.
  iteration env song w; try (left; done);
    right; (split; [done|]); do 2 eexists; (split; [done|]); (split; [|done]); lia.
Qed.

(** ** The loop *)

Lemma for_of_cons {A} (x : A) rest body w :
  for_of (x :: rest) body w =
    match body x w with
    | Returned _ w' => for_of rest body w'
    | Threw e w' => Threw e w'
    | Pending w' => Pending w'
    end.
Proof. reflexivity. Qed.

Lemma count_zero_lookup p (evs : list Event) i ev :
  count p evs = 0%nat → evs !! i = Some ev → p ev = false.
Proof.
  revert i. induction evs as [|x evs IH]; intros i Hc Hi; [done|].
  rewrite count_cons in Hc. destruct i as [|i]; simpl in Hi.
  - injection Hi as ->. destruct (p ev); [simpl in Hc; lia | done].
  - apply (IH i); [lia | done].
Qed.

(** The calls of a run of the loop, from any world and however it ends. *)
Lemma for_of_trace env songs w :
  let o := for_of songs (process_song env) w in
  ∃ evs,
    trace (world_of o) = trace w ++ evs
    ∧ cooldown_before_each_fetch evs
    ∧ (∀ ev, evs !! 0%nat = Some ev → is_fetch ev = true)
    ∧ count is_log_updated evs = count is_cooldown evs
    ∧ (count is_fetch evs ≤ S (count is_cooldown evs))%nat
    ∧ (count is_fetch evs ≤ length songs)%nat
    ∧ (is_returned o = true →
         (count is_cooldown evs = length songs ∧ count is_fetch evs = length songs)
         ∧ (songs ≠ [] → last evs = Some (Ev_sleep COOLDOWN_MS)))
    ∧ now w + Z.of_nat (count is_cooldown evs) * COOLDOWN_MS ≤ now (world_of o).
Proof.
  cbv zeta. revert w. induction songs as [|s rest IH]; intros w.
  { exists []. simpl. rewrite app_nil_r. repeat split; try done; unfold count; simpl; lia. }
  rewrite for_of_cons.
  destruct (process_song_trace env s w) as (mid & Htr & Hfetch & Hmid).
  destruct (process_song_clock env s w) as [Hmono Hcool].
  destruct (process_song env s w) as [[] w1|e w1|w1] eqn:Hbody; simpl in *.
  - destruct Hmid as (Hlast & Hsleep & Hlog).
    destruct (IH w1) as (evs & Htr' & Hpaced & Hhead & Hlogs & Hle & Hlen & Hret & Hclock).
    exists ((Ev_youtubedl (watch_url (Song.youtubeid s)) :: mid) ++ evs).
    rewrite Htr', Htr, <- app_assoc. split; [done|].
    assert (Hne : (0 < length mid)%nat).
    { destruct mid; [done | simpl; lia]. }
    rewrite !count_app, !count_cons, Hfetch, Hsleep, Hlog. simpl.
    specialize (Hcool eq_refl).
    split_and!; try lia.
    + intros i url Hi. simpl in Hi.
      destruct (decide (i < length mid)%nat) as [Hlt|Hge].
      * rewrite lookup_app_l in Hi by done.
        by apply (count_zero_lookup _ _ _ _ Hfetch) in Hi.
      * rewrite lookup_app_r in Hi by lia.
        destruct (i - length mid)%nat as [|j] eqn:Hj.
        -- assert (i = S (pred (length mid))) as -> by lia.
           simpl. rewrite lookup_app_l by lia. by rewrite <- last_lookup.
        -- destruct i as [|i]; [lia|]. simpl.
           rewrite lookup_app_r by lia.
           replace (i - length mid)%nat with j by lia. by apply (Hpaced j url).
    + by intros ev [= <-].
    + intros Hr. destruct (Hret Hr) as [[Hn Hn'] Hl]. split; [lia|]. intros _.
      destruct rest as [|s' rest'].
      * destruct evs as [|ev evs].
        -- rewrite app_nil_r. by rewrite last_cons, Hlast.
        -- specialize (Hhead _ eq_refl). rewrite !count_cons in *.
           rewrite Hhead in Hlen. simpl in Hlen. lia.
      * specialize (Hl ltac:(done)).
        by rewrite last_cons, last_app, Hl.
  - destruct Hmid as [Hsleep Hlog].
    exists (Ev_youtubedl (watch_url (Song.youtubeid s)) :: mid). split; [done|].
    rewrite !count_cons, Hfetch, Hsleep, Hlog. simpl.
    split_and!; try done; try lia.
    + intros i url Hi. simpl in Hi. by apply (count_zero_lookup _ _ _ _ Hfetch) in Hi.
    + by intros ev [= <-].
  - destruct Hmid as [Hsleep Hlog].
    exists (Ev_youtubedl (watch_url (Song.youtubeid s)) :: mid). split; [done|].
    rewrite !count_cons, Hfetch, Hsleep, Hlog. simpl.
    split_and!; try done; try lia.
    + intros i url Hi. simpl in Hi. by apply (count_zero_lookup _ _ _ _ Hfetch) in Hi.
    + by intros ev [= <-].
Qed.

(** *** What a run of the loop does to the table *)

Lemma set_metrics_twice s1 t1 s2 t2 r :
  set_metrics s2 t2 (set_metrics s1 t1 r) = set_metrics s2 t2 r.
Proof. reflexivity. Qed.

Lemma Forall2_refl_on {A} (R : A → A → Prop) (l : list A) :
  (∀ x, x ∈ l → R x x) → Forall2 R l l.
Proof. intros H. apply Forall_Forall2_diag, Forall_forall. exact H. Qed.

Lemma for_of_Songs env songs w :
  let o := for_of songs (process_song env) w in
  now w ≤ now (world_of o)
  ∧ Forall2
      (λ r r',
         rewritten env songs (now w) r r'
         ∨ (r' = r
            ∧ (is_returned o = true →
               ∀ s, s ∈ songs → Song.youtubeid s ≠ Song.youtubeid r)))
      (Songs w) (Songs (world_of o)).
Proof.
  cbv zeta. revert w. induction songs as [|s rest IH]; intros w.
  { simpl. split; [lia|]. apply Forall2_refl_on. intros r _. right.
    split; [done|]. intros _ s Hs. by apply elem_of_nil in Hs. }
  rewrite for_of_cons.
  destruct (process_song_clock env s w) as [Hmono _].
  destruct (process_song_Songs env s w) as [[Hnot Hsame]|(Hret & stats & t & Hstats & Ht & Hupd)].
  - destruct (process_song env s w) as [[] w1|e w1|w1]; simpl in *; try done;
      (split; [done|]); rewrite Hsame; apply Forall2_refl_on; intros r _; right; done.
  - destruct (process_song env s w) as [[] w1|e w1|w1]; simpl in *; try done.
    destruct (IH w1) as [Hmono' Hrows]. split; [lia|].
    rewrite Hupd in Hrows. apply Forall2_fmap_l in Hrows.
    eapply Forall2_impl; [exact Hrows|]. clear Hrows.
    intros r r'. simpl. unfold update_where.
    destruct (decide (Song.youtubeid r = Song.youtubeid s)) as [Hy|Hy].
    + intros [(s' & stats' & ta & t' & Hin & Hid & Hta & Hst & Ht' & ->)|[-> _]]; left.
      * exists s', stats', ta, t'. rewrite set_metrics_twice.
        split_and!; try done; try lia. by apply list_elem_of_further.
      * exists s, stats, (now w), t. split_and!; try done; try lia. apply list_elem_of_here.
    + intros [(s' & stats' & ta & t' & Hin & Hid & Hta & Hst & Ht' & ->)|[-> Hfresh]].
      * left. exists s', stats', ta, t'.
        split_and!; try done; try lia. by apply list_elem_of_further.
      * right. split; [done|]. intros Hr s' Hin.
        apply elem_of_cons in Hin as [->|Hin]; [done | by apply Hfresh].
Qed.

(** ** The tick *)

Lemma try_block_unfold env Op w :
  try_block env Op w =
    match Op with
    | Unbound => Threw (ReferenceError "Op") w
    | Sequelize_Op =>
        let w1 := emit (Ev_Song_findAll (now w - 10 * 60 * 1000)) w in
        match findAll_reply env (now w) with
        | Resolves _ ms =>
            for_of (filter (stale (now w)) (Songs w)) (process_song env) (advance ms w1)
        | Rejects e ms => Threw e (advance ms w1)
        | NeverSettles => Pending w1
        end
    end.
Proof.
  unfold try_block, bind, Date_now, Op_lt, Song_findAll, throw, ret. cbv zeta.
  destruct Op; [done|]. by destruct (findAll_reply env (now w)).
Qed.

(** With [Op] bound to Sequelize's operators the query is the one the
    specification describes: the rows strictly older than ten minutes, in
    table order. *)
Lemma bound_Op_selects_the_stale_rows t (rows : list Song.t) r :
  r ∈ filter (stale t) rows ↔ Song.updatedAt r < t - 10 * 60 * 1000 ∧ r ∈ rows.
Proof. by rewrite list_elem_of_filter. Qed.

(** The module as shipped: whatever the world, the tick stops at line 70,
    before the query, and only logs the error. *)
Lemma shipped_tick_stops_before_the_query env w :
  updateAllStatsInBackground env index_js_Op w
  = Returned tt (emit (Ev_error_tick (ReferenceError "Op")) w).
Proof.
  unfold updateAllStatsInBackground, try_catch. rewrite try_block_unfold.
  by vm_compute index_js_Op.
Qed.

(** C2 (defect of the code): the sample table holds two rows older than the
    cutoff, yet the tick of the shipped module selects none: [Op] is unbound,
    so the tick throws before [Song.findAll] is called, logs the error and
    leaves the table, the cache and the clock as they were. *)
Theorem C2_shipped_tick_selects_nothing :
  filter (stale (now sample_world)) (Songs sample_world)
  = [ song 1 "abc123" 100 10 (minutes 89); song 2 "xyz789" 7 0 (minutes 50) ]
  ∧ updateAllStatsInBackground env_up index_js_Op sample_world
    = Returned tt
        {| now := now sample_world; Songs := Songs sample_world; kv := kv sample_world;
           trace := [ Ev_error_tick (ReferenceError "Op") ] |}.
Proof. split; [by vm_compute | apply shipped_tick_stops_before_the_query]. Qed.

(** The calls of one tick, however it ends: the query first (when [Op] is
    bound), then the calls of the loop, then the error line if something
    threw. *)
Lemma tick_trace env Op w :
  let o := updateAllStatsInBackground env Op w in
  ∃ evs,
    trace (world_of o) = trace w ++ evs
    ∧ (∀ i url, evs !! S (S i) = Some (Ev_youtubedl url) →
         evs !! S i = Some (Ev_sleep COOLDOWN_MS))
    ∧ count is_log_updated evs = count is_cooldown evs
    ∧ (count is_fetch evs ≤ S (count is_cooldown evs))%nat
    ∧ now w + Z.of_nat (count is_cooldown evs) * COOLDOWN_MS ≤ now (world_of o)
    ∧ (∀ w', try_block env Op w = Returned tt w' →
         let n := length (filter (stale (now w)) (Songs w)) in
         count is_cooldown evs = n ∧ count is_fetch evs = n
         ∧ (n ≠ 0%nat → last evs = Some (Ev_sleep COOLDOWN_MS))).
Proof.
  cbv zeta. unfold updateAllStatsInBackground, try_catch, console.
  rewrite try_block_unfold. destruct Op; cbv zeta.
  { exists [Ev_error_tick (ReferenceError "Op")]. simpl.
    split_and!; try done; unfold count; simpl; lia. }
  destruct (findAll_reply env (now w)) as [[] ms|e ms|]; simpl.
  2,3: (eexists; split; [rewrite <- ?app_assoc; reflexivity|]);
       split_and!; try done; unfold count; simpl; try lia; by intros [|?] ?.
  remember (advance ms (emit (Ev_Song_findAll (now w - 10 * 60 * 1000)) w)) as w1 eqn:Hw1def.
  assert (Hw1 : now w ≤ now w1) by (subst w1; simpl; lia).
  assert (Htr1 : trace w1 = trace w ++ [Ev_Song_findAll (now w - 10 * 60 * 1000)])
    by (by subst w1).
  clear Hw1def.
  destruct (for_of_trace env (filter (stale (now w)) (Songs w)) w1)
    as (evs & Htr & Hpaced & Hhead & Hlogs & Hle & Hlen & Hret & Hclock).
  destruct (for_of _ _ w1) as [[] w2|e w2|w2]; simpl in *.
  - exists (Ev_Song_findAll (now w - 10 * 60 * 1000) :: evs).
    rewrite Htr, Htr1, <- app_assoc. rewrite !count_cons. simpl.
    split_and!; try done; try lia.
    intros w' [= <-]. destruct (Hret eq_refl) as [[Hn Hn'] Hl].
    split_and!; try done. intros Hne. rewrite last_cons.
    rewrite Hl; [done|]. intros Heq. by rewrite Heq in Hne.
  - exists (Ev_Song_findAll (now w - 10 * 60 * 1000) :: evs ++ [Ev_error_tick e]).
    rewrite Htr, Htr1, <- !app_assoc.
    rewrite !count_cons, !count_app, !count_cons, !count_nil. simpl.
    split_and!; try done; try lia.
    intros i url Hi. simpl in *.
    destruct (decide (S i < length evs)%nat) as [Hlt|Hge].
    + rewrite lookup_app_l in Hi by done. rewrite lookup_app_l by lia. by apply (Hpaced i url).
    + rewrite lookup_app_r in Hi by lia.
      destruct (S i - length evs)%nat as [|[|?]]; done.
  - exists (Ev_Song_findAll (now w - 10 * 60 * 1000) :: evs).
    rewrite Htr, Htr1, <- app_assoc. rewrite !count_cons. simpl.
    split_and!; try done; lia.
Qed.

(** The calls of a tick over the sample table when [Op] is bound and every
    service answers: the query, then the two stale songs, each followed by
    its cooldown; the second song's fetch fails and is logged. *)
Example sample_tick_calls :
  trace (world_of (updateAllStatsInBackground env_up Sequelize_Op sample_world))
  = [ Ev_Song_findAll (minutes 90);
      Ev_youtubedl (watch_url "abc123");
      Ev_redis_set "ytstats:abc123" (JSON_stringify {| views := "150"; likes := "12" |}) 60;
      Ev_Song_update {| views := "150"; likes := "12" |} "abc123";
      Ev_log_updated (minutes 100 + 506) "abc123" 30;
      Ev_sleep 30000;
      Ev_youtubedl (watch_url "xyz789");
      Ev_error_fetch "xyz789" (Failure "ETIMEDOUT");
      Ev_redis_set "ytstats:xyz789" (JSON_stringify {| views := "N/A"; likes := "N/A" |}) 60;
      Ev_Song_update {| views := "N/A"; likes := "N/A" |} "xyz789";
      Ev_log_updated (minutes 100 + 30516) "xyz789" 30;
      Ev_sleep 30000 ].
Proof. by vm_compute. Qed.

(** C3: in the calls of a tick (the first of which is the query), every
    extractor call other than the tick's first one comes right after a sleep
    of [COOLDOWN_MS], which is 30 seconds, whatever the outcome of the fetch
    before it; hence a tick that has started [N] songs has lasted at least
    [(N - 1) * COOLDOWN_MS]. *)
Theorem C3_cooldown_between_songs env Op w :
  let o := updateAllStatsInBackground env Op w in
  ∃ evs,
    trace (world_of o) = trace w ++ evs
    ∧ (∀ i url, evs !! S (S i) = Some (Ev_youtubedl url) →
         evs !! S i = Some (Ev_sleep COOLDOWN_MS))
    ∧ (Z.of_nat (count is_fetch evs) - 1) * COOLDOWN_MS ≤ now (world_of o) - now w
    ∧ COOLDOWN_MS = 30 * 1000.
Proof.
  cbv zeta. destruct (tick_trace env Op w) as (evs & Htr & Hpaced & _ & Hle & Hclock & _).
  exists evs. split_and!; try done. unfold COOLDOWN_MS in *. lia.
Qed.

(** C10: the cooldown is slept once per song processed, the last one
    included: a tick has as many sleeps of [COOLDOWN_MS] as it has logged
    songs, and has lasted at least that many cooldowns; when its [try] block
    runs to the end, that number is the number of selected songs and the
    last call of the tick is the sleep after the last song. *)
Theorem C10_cooldown_after_every_song env Op w :
  let o := updateAllStatsInBackground env Op w in
  ∃ evs,
    trace (world_of o) = trace w ++ evs
    ∧ count is_cooldown evs = count is_log_updated evs
    ∧ now w + Z.of_nat (count is_log_updated evs) * COOLDOWN_MS ≤ now (world_of o)
    ∧ (∀ w', try_block env Op w = Returned tt w' →
         let n := length (filter (stale (now w)) (Songs w)) in
         count is_cooldown evs = n ∧ count is_fetch evs = n
         ∧ (n ≠ 0%nat → last evs = Some (Ev_sleep COOLDOWN_MS))).
Proof.
  cbv zeta. destruct (tick_trace env Op w) as (evs & Htr & _ & Hlogs & _ & Hclock & Hret).
  exists evs. rewrite Hlogs. split_and!; done.
Qed.

(** C10 on the sample table: two songs selected, two cooldowns slept, the
    second one after the last song, and the quick services of
    [env_up] still leave the tick a full minute long. *)
Example sample_tick_sleeps_after_the_last_song :
  let o := updateAllStatsInBackground env_up Sequelize_Op sample_world in
  length (filter (stale (now sample_world)) (Songs sample_world)) = 2%nat
  ∧ count is_cooldown (trace (world_of o)) = 2%nat
  ∧ last (trace (world_of o)) = Some (Ev_sleep COOLDOWN_MS)
  ∧ now (world_of o) - now sample_world = 2 * COOLDOWN_MS + 516.
Proof. by vm_compute. Qed.

(** ** The durable write *)

Lemma Forall2_impl_in {A B} (P Q : A → B → Prop) (l : list A) (k : list B) :
  Forall2 P l k → (∀ x y, x ∈ l → y ∈ k → P x y → Q x y) → Forall2 Q l k.
Proof.
  induction 1 as [|x y l k Hxy _ IH]; intros Himp; constructor.
  - apply Himp; [apply list_elem_of_here..|done].
  - apply IH. intros x' y' Hx' Hy'. apply Himp; by apply list_elem_of_further.
Qed.

Lemma same_other_columns_refl r : same_other_columns r r.
Proof. by repeat split. Qed.

Lemma same_other_columns_set_metrics stats t r : same_other_columns r (set_metrics stats t r).
Proof. by repeat split. Qed.



(** After a run of the loop that reached its end, every row carrying the
    youtubeid of a processed song holds what the extractor said. *)
Lemma completed_run_metrics env (metrics : string → Stats) songs w0 w1 :
  (∀ s t, s ∈ songs →
     stats_of_reply (youtubedl_reply env (watch_url (Song.youtubeid s)) t)
     = Some (metrics (Song.youtubeid s))) →
  for_of songs (process_song env) w0 = Returned tt w1 →
  ∀ r, r ∈ Songs w1 → (∃ s, s ∈ songs ∧ Song.youtubeid s = Song.youtubeid r) →
       Song.views r = CStr (views (metrics (Song.youtubeid r)))
       ∧ Song.likes r = CStr (likes (metrics (Song.youtubeid r))).
Proof.
  intros Hsame Hrun r Hr (s & Hs & Hy).
  pose proof (for_of_Songs env songs w0) as Hloop. cbv zeta in Hloop.
  rewrite Hrun in Hloop. simpl in Hloop. destruct Hloop as [_ Hrows].
  apply list_elem_of_lookup in Hr as [i Hi].
  destruct (Forall2_lookup_r _ _ _ _ _ Hrows Hi) as (r0 & _ & Hrel).
  destruct Hrel as [(s' & stats & ta & t & Hs' & Hy' & _ & Hstats & _ & ->)|[-> Hfresh]].
  - rewrite Hsame in Hstats by done. injection Hstats as <-. simpl. by rewrite Hy'.
  - by destruct (Hfresh eq_refl s).
Qed.

(** A second run of the loop over songs whose youtubeids were all processed
    by a first run that reached its end, the extractor answering the same
    metrics for them at any time: however the second run ends, every row has
    after it the views and likes it had after the first. *)
Lemma rerun_keeps_metrics env (metrics : string → Stats) songs songs' w0 w1 w1' :
  (∀ s t, s ∈ songs →
     stats_of_reply (youtubedl_reply env (watch_url (Song.youtubeid s)) t)
     = Some (metrics (Song.youtubeid s))) →
  (∀ s', s' ∈ songs' → ∃ s, s ∈ songs ∧ Song.youtubeid s = Song.youtubeid s') →
  for_of songs (process_song env) w0 = Returned tt w1 →
  Songs w1' = Songs w1 →
  Forall2
    (λ r r', same_other_columns r r'
             ∧ Song.views r' = Song.views r ∧ Song.likes r' = Song.likes r)
    (Songs w1) (Songs (world_of (for_of songs' (process_song env) w1'))).
Proof.
  intros Hsame Hids Hrun Htable.
  pose proof (completed_run_metrics env metrics songs w0 w1 Hsame Hrun) as Hfirst.
  destruct (for_of_Songs env songs' w1') as [_ Hrows]. rewrite Htable in Hrows.
  eapply Forall2_impl_in; [exact Hrows|]. clear Hrows.
  intros r r' Hr _ [(s' & stats & ta & t & Hs' & Hy' & _ & Hstats & _ & ->)|[-> _]].
  - split; [apply same_other_columns_set_metrics|]. simpl.
    destruct (Hids s' Hs') as (s & Hs & Hy).
    rewrite <- Hy, Hsame in Hstats by done. injection Hstats as <-.
    destruct (Hfirst r Hr) as [-> ->]; [exists s; split; [done | congruence]|].
    split; f_equal; f_equal; congruence.
  - split_and!; try done; apply same_other_columns_refl.
Qed.

Lemma Songs_after_catch (m : Async unit) w :
  Songs (world_of (try_catch m (λ err, console (Ev_error_tick err)) w))
  = Songs (world_of (m w)).
Proof. unfold try_catch, console. by destruct (m w). Qed.

(** C8: let a tick run its [try] block to the end, the extractor answering
    for each selected song the same metrics at any time, and let a second
    tick start on the table the first one left and select songs whose
    youtubeids the first one processed (the same stale set, or part of it).
    However the second tick ends, every row has after it the views and likes
    it had after the first; and these are the extractor's answer itself,
    whatever the row held before: the write overwrites. *)
Theorem C8_second_tick_leaves_the_same_metrics
    env (metrics : string → Stats) Op w0 w1 w1' :
  let selected := filter (stale (now w0)) (Songs w0) in
  let selected' := filter (stale (now w1')) (Songs w1') in
  (∀ s t, s ∈ selected →
     stats_of_reply (youtubedl_reply env (watch_url (Song.youtubeid s)) t)
     = Some (metrics (Song.youtubeid s))) →
  try_block env Op w0 = Returned tt w1 →
  Songs w1' = Songs w1 →
  (∀ s', s' ∈ selected' → ∃ s, s ∈ selected ∧ Song.youtubeid s = Song.youtubeid s') →
  let w2 := world_of (updateAllStatsInBackground env Op w1') in
  Forall2
    (λ r r', same_other_columns r r'
             ∧ Song.views r' = Song.views r ∧ Song.likes r' = Song.likes r)
    (Songs w1) (Songs w2)
  ∧ (∀ r, r ∈ Songs w1 → (∃ s, s ∈ selected ∧ Song.youtubeid s = Song.youtubeid r) →
       Song.views r = CStr (views (metrics (Song.youtubeid r)))
       ∧ Song.likes r = CStr (likes (metrics (Song.youtubeid r)))).
Proof.
  cbv zeta. intros Hsame Hfirst Htable Hids.
  rewrite try_block_unfold in Hfirst. destruct Op; [done|]. cbv zeta in Hfirst.
  destruct (findAll_reply env (now w0)) as [[] ms|e ms|]; try done.
  split; [|by eapply completed_run_metrics].
  unfold updateAllStatsInBackground. rewrite Songs_after_catch, try_block_unfold. cbv zeta.
  destruct (findAll_reply env (now w1')) as [[] ms'|e ms'|]; simpl.
  - by eapply rerun_keeps_metrics.
  - rewrite Htable. apply Forall2_refl_on. intros r _.
    split_and!; try done; apply same_other_columns_refl.
  - rewrite Htable. apply Forall2_refl_on. intros r _.
    split_and!; try done; apply same_other_columns_refl.
Qed.

(** C8 on a table of two stale songs: a first tick at 100 min, a second one
    at 200 min on the table the first left, when both songs are stale again. *)
Lemma C8_sample_second_tick :
  let w2 := world_of (updateAllStatsInBackground env_up Sequelize_Op stale_world_later) in
  Forall2
    (λ r r', same_other_columns r r'
             ∧ Song.views r' = Song.views r ∧ Song.likes r' = Song.likes r)
    (Songs stale_world_after) (Songs w2)
  ∧ (∀ r, r ∈ Songs stale_world_after →
       (∃ s, s ∈ filter (stale (now stale_world)) (Songs stale_world)
             ∧ Song.youtubeid s = Song.youtubeid r) →
       Song.views r = CStr (views (sample_metrics (Song.youtubeid r)))
       ∧ Song.likes r = CStr (likes (sample_metrics (Song.youtubeid r)))).
Proof.
  cbv zeta.
  refine (C8_second_tick_leaves_the_same_metrics env_up sample_metrics Sequelize_Op
            stale_world stale_world_after stale_world_later _ _ _ _).
  - intros s t Hs. vm_compute in Hs.
    apply elem_of_cons in Hs as [->|Hs]; [reflexivity|].
    apply elem_of_cons in Hs as [->|Hs]; [reflexivity|].
    by apply elem_of_nil in Hs.
  - by vm_compute.
  - reflexivity.
  - intros s' Hs'. vm_compute in Hs'.
    apply elem_of_cons in Hs' as [->|Hs'].
    { exists (song 1 "abc123" 100 10 (minutes 89)). split; [vm_compute; by left | reflexivity]. }
    apply elem_of_cons in Hs' as [->|Hs'].
    { exists (song 2 "xyz789" 7 0 (minutes 50)).
      split; [vm_compute; right; by left | reflexivity]. }
    by apply elem_of_nil in Hs'.
Defined.

(** The second tick of the sample does select both songs again. *)
Example sample_second_tick_selects_both_again :
  Song.youtubeid <$> filter (stale (now stale_world)) (Songs stale_world)
  = [ "abc123"; "xyz789" ]
  ∧ Song.youtubeid <$> filter (stale (now stale_world_later)) (Songs stale_world_later)
    = [ "abc123"; "xyz789" ].
Proof. by vm_compute. Qed.

(** ** The cache write *)

(** C9: whenever the extractor call of a song settles, resolved or
    rejected, the very next call of the iteration writes the JSON text of the
    fetch result under the key made of the song's youtubeid, with an expiry of
    60 seconds; once Redis acknowledges it, the cache holds that text there
    until 60 seconds after the write, and nothing later in the iteration
    touches the cache.  Distinct youtubeids get distinct keys. *)
Theorem C9_fetch_result_always_cached env song w :
  let y := Song.youtubeid song in
  let reply := youtubedl_reply env (watch_url y) (now w) in
  let o := process_song env song w in
  reply ≠ NeverSettles →
  (∃ stats w1 evs,
     fetchYouTubeStats env y w = Returned stats w1
     ∧ stats_of_reply reply = Some stats
     ∧ trace (world_of o)
       = trace w1 ++ Ev_redis_set (cache_key y) (JSON_stringify stats) 60 :: evs
     ∧ (∀ ms,
          redis_reply env (cache_key y) (JSON_stringify stats) (now w1) = Resolves tt ms →
          kv (world_of o)
          = <[cache_key y := (JSON_stringify stats, now w1 + 60 * 1000)]> (kv w)))
  ∧ (∀ y1 y2, cache_key y1 = cache_key y2 → y1 = y2).
Proof.
  cbv zeta. intros Hsettles. split; [|intros y1 y2; apply String.app_inj].
  revert Hsettles.
  iteration env song w; intros Hsettles; try done;
    do 3 eexists; (split; [reflexivity|]); (split; [reflexivity|]);
    simpl; rewrite <- ?app_assoc; (split; [reflexivity|]);
    intros ms' Hms; simpl in *; congruence.
Qed.

(** C9 on the sample table: the fetch of the second song is rejected, and
    the sentinel is what goes to the cache. *)
Lemma C9_sample_failed_fetch_is_cached :
  let s := song 2 "xyz789" 7 0 (minutes 50) in
  let o := process_song env_up s sample_world in
  (∃ stats w1 evs,
     fetchYouTubeStats env_up "xyz789" sample_world = Returned stats w1
     ∧ stats_of_reply (youtubedl_reply env_up (watch_url "xyz789") (now sample_world))
       = Some stats
     ∧ trace (world_of o)
       = trace w1 ++ Ev_redis_set (cache_key "xyz789") (JSON_stringify stats) 60 :: evs
     ∧ (∀ ms,
          redis_reply env_up (cache_key "xyz789") (JSON_stringify stats) (now w1)
          = Resolves tt ms →
          kv (world_of o)
          = <[cache_key "xyz789" := (JSON_stringify stats, now w1 + 60 * 1000)]>
              (kv sample_world)))
  ∧ (∀ y1 y2, cache_key y1 = cache_key y2 → y1 = y2).
Proof.
  cbv zeta.
  apply (C9_fetch_result_always_cached env_up (song 2 "xyz789" 7 0 (minutes 50)) sample_world).
  by vm_compute.
Defined.

(** ** Failures *)

(** C1 (as amended): when the extractor call of a song is rejected,
    [fetchYouTubeStats] does not raise and returns the sentinel, whose two
    texts are N/A; and if Redis and the table accept their writes, the
    iteration runs to its end: the cache holds the JSON text of the sentinel
    under the song's key, every row carrying the song's youtubeid holds N/A
    as views and likes, and the loop goes on with the next song. *)
Theorem C1_failed_fetch_yields_the_sentinel env song rest w e ms :
  let y := Song.youtubeid song in
  youtubedl_reply env (watch_url y) (now w) = Rejects e ms →
  (∃ w1, fetchYouTubeStats env y w = Returned {| views := "N/A"; likes := "N/A" |} w1)
  ∧ ((∀ v t, ∃ d, redis_reply env (cache_key y) v t = Resolves tt d) →
     (∀ v t, ∃ d, update_reply env v y t = Resolves tt d) →
     ∃ w' t expiry,
       process_song env song w = Returned tt w'
       ∧ kv w' !! cache_key y = Some (JSON_stringify sentinel, expiry)
       ∧ Songs w' = update_where sentinel y t <$> Songs w
       ∧ (∀ r, r ∈ Songs w' → Song.youtubeid r = y →
            Song.views r = CStr "N/A" ∧ Song.likes r = CStr "N/A")
       ∧ for_of (song :: rest) (process_song env) w = for_of rest (process_song env) w').
Proof.
  cbv zeta. intros Hreply. split.
  { rewrite fetchYouTubeStats_unfold, Hreply. by eexists. }
  intros Hredis Hupdate.
  rewrite for_of_cons, process_song_unfold. cbv zeta.
  rewrite fetchYouTubeStats_unfold, Hreply. simpl.
  unfold redis_set. simpl.
  destruct (Hredis (JSON_stringify sentinel) (now w + Z.of_N ms)) as [d1 ->]. simpl.
  unfold Song_update. simpl.
  destruct (Hupdate sentinel (now w + Z.of_N ms + Z.of_N d1)) as [d2 ->]. simpl.
  unfold sleep. simpl. do 3 eexists. split_and!; try reflexivity.
  - simpl. apply lookup_insert_eq.
  - simpl. intros r Hr Hy. apply list_elem_of_fmap in Hr as (r0 & -> & _).
    unfold update_where in *. destruct (decide (Song.youtubeid r0 = Song.youtubeid song)); done.
Qed.

(** C1 on the sample table, where the extractor rejects the second song and
    both stores accept their writes. *)
Lemma C1_sample_failed_fetch :
  let s := song 2 "xyz789" 7 0 (minutes 50) in
  (∃ w1, fetchYouTubeStats env_up "xyz789" sample_world
         = Returned {| views := "N/A"; likes := "N/A" |} w1)
  ∧ (∃ w' t expiry,
       process_song env_up s sample_world = Returned tt w'
       ∧ kv w' !! cache_key "xyz789" = Some (JSON_stringify sentinel, expiry)
       ∧ Songs w' = update_where sentinel "xyz789" t <$> Songs sample_world
       ∧ (∀ r, r ∈ Songs w' → Song.youtubeid r = "xyz789" →
            Song.views r = CStr "N/A" ∧ Song.likes r = CStr "N/A")
       ∧ for_of [s; song 3 "fresh01" 5 1 (minutes 91)] (process_song env_up) sample_world
         = for_of [song 3 "fresh01" 5 1 (minutes 91)] (process_song env_up) w').
Proof.
  cbv zeta.
  destruct (C1_failed_fetch_yields_the_sentinel env_up (song 2 "xyz789" 7 0 (minutes 50))
              [song 3 "fresh01" 5 1 (minutes 91)] sample_world (Failure "ETIMEDOUT") 7 eq_refl)
    as [Hfetch Hwrites].
  split; [exact Hfetch|]. apply Hwrites; intros v t; by eexists.
Defined.

(** C1, the claim as stated, fails on the text of the sentinel: the song
    whose fetch is rejected gets N/A, not unknown, from the helper and in
    its row.  And the two writes are not unconditional: when Redis rejects
    the cache write of that song, nothing is cached, the row is not written
    and the error leaves the loop. *)
Lemma C1_sentinel_is_not_unknown :
  let s := song 2 "xyz789" 7 0 (minutes 50) in
  youtubedl_reply env_up (watch_url "xyz789") (now sample_world)
    = Rejects (Failure "ETIMEDOUT") 7
  ∧ returned (fetchYouTubeStats env_up "xyz789" sample_world)
    = Some {| views := "N/A"; likes := "N/A" |}
  ∧ returned (fetchYouTubeStats env_up "xyz789" sample_world)
    ≠ Some {| views := "unknown"; likes := "unknown" |}
  ∧ (λ r, (Song.views r, Song.likes r))
      <$> Songs (world_of (process_song env_up s sample_world))
    = [ (CInt 100, CInt 10); (CStr "N/A", CStr "N/A"); (CInt 5, CInt 1) ]
  ∧ is_returned (process_song env_cache_down s sample_world) = false
  ∧ Songs (world_of (process_song env_cache_down s sample_world)) = Songs sample_world
  ∧ kv (world_of (process_song env_cache_down s sample_world)) !! cache_key "xyz789" = None.
Proof. by vm_compute. Qed.

(** C4 (as amended): when the durable write of a song is rejected, the
    error leaves the loop at once: the table is as it was, none of the
    remaining songs is fetched, cached or written, no cooldown is slept, and
    the [catch] of the tick logs the error and lets the tick return. *)
Theorem C4_storage_error_ends_the_tick env song rest w e :
  let y := Song.youtubeid song in
  let loop := for_of (song :: rest) (process_song env) in
  youtubedl_reply env (watch_url y) (now w) ≠ NeverSettles →
  (∀ v t, ∃ d, redis_reply env (cache_key y) v t = Resolves tt d) →
  (∀ v t, ∃ d, update_reply env v y t = Rejects e d) →
  ∃ w' evs stats,
    loop w = Threw e w'
    ∧ try_catch loop (λ err, console (Ev_error_tick err)) w
      = Returned tt (emit (Ev_error_tick e) w')
    ∧ Songs w' = Songs w
    ∧ trace w' = trace w ++ evs
    ∧ last evs = Some (Ev_Song_update stats y)
    ∧ count is_fetch evs = 1%nat
    ∧ count is_cooldown evs = 0%nat.
Proof.
  cbv zeta. intros Hsettles Hredis Hupdate. unfold try_catch.
  rewrite for_of_cons, process_song_unfold. cbv zeta.
  rewrite fetchYouTubeStats_unfold.
  destruct (youtubedl_reply env _ _) as [data ms|e0 ms|]; [| |done]; simpl;
    unfold redis_set; simpl;
    (match goal with
     | |- context [redis_reply env ?k ?v ?t] => destruct (Hredis v t) as [d1 ->]
     end); simpl; unfold Song_update; simpl;
    (match goal with
     | |- context [update_reply env ?v ?y ?t] => destruct (Hupdate v t) as [d2 ->]
     end); simpl;
    do 3 eexists; (split; [reflexivity|]); (split; [reflexivity|]);
    (split; [reflexivity|]); simpl; rewrite <- ?app_assoc;
    (split; [reflexivity|]); by vm_compute.
Qed.

(** C4 on the sample table, with a durable store that rejects every write:
    the first selected song is fetched and cached, its write throws, and the
    second selected song is never started. *)
Lemma C4_sample_storage_error :
  let loop := for_of sample_selection (process_song env_storage_down) in
  ∃ w' evs stats,
    loop sample_world = Threw (Failure "SQLITE_BUSY") w'
    ∧ try_catch loop (λ err, console (Ev_error_tick err)) sample_world
      = Returned tt (emit (Ev_error_tick (Failure "SQLITE_BUSY")) w')
    ∧ Songs w' = Songs sample_world
    ∧ trace w' = trace sample_world ++ evs
    ∧ last evs = Some (Ev_Song_update stats "abc123")
    ∧ count is_fetch evs = 1%nat
    ∧ count is_cooldown evs = 0%nat.
Proof.
  cbv zeta.
  apply (C4_storage_error_ends_the_tick env_storage_down
           (song 1 "abc123" 100 10 (minutes 89)) [song 2 "xyz789" 7 0 (minutes 50)]
           sample_world (Failure "SQLITE_BUSY")).
  - by vm_compute.
  - intros v t. by eexists.
  - intros v t. by eexists.
Defined.

(** C4, the claim as stated, fails: with a table that rejects the write of
    the first of two stale songs, the tick logs the error and returns; the
    second song is never fetched and its row stays as it was. *)
Lemma C4_storage_error_skips_the_next_song :
  let o := updateAllStatsInBackground env_storage_down Sequelize_Op sample_world in
  Song.youtubeid <$> sample_selection = [ "abc123"; "xyz789" ]
  ∧ is_returned o = true
  ∧ trace (world_of o)
    = [ Ev_Song_findAll (minutes 90);
        Ev_youtubedl (watch_url "abc123");
        Ev_redis_set "ytstats:abc123" (JSON_stringify {| views := "150"; likes := "12" |}) 60;
        Ev_Song_update {| views := "150"; likes := "12" |} "abc123";
        Ev_error_tick (Failure "SQLITE_BUSY") ]
  ∧ Songs (world_of o) = Songs sample_world.
Proof. by vm_compute. Qed.

(** * Further properties of the synchronizer *)

(** ** The tick as a whole *)

Lemma for_of_responsive env songs w :
  responsive env →
  ∀ w', for_of songs (process_song env) w ≠ Pending w'.
Proof.
  intros (Hy & Hr & Hu & _). revert w.
  induction songs as [|s rest IH]; intros w w'; [done|].
  rewrite for_of_cons.
  destruct (process_song env s w) as [[] w1|e w1|w1] eqn:Hbody; [apply IH|done|].
  exfalso. revert Hbody.
  iteration env s w; try done;
    first [ by destruct (Hy _ _ Hfetch)
          | by destruct (Hr _ _ _ Hreply)
          | by destruct (Hu _ _ _ Hreply0) ].
Qed.

(** X1: no exception escapes a tick, whatever the services do and whether
    [Op] is bound or not; and a tick returns as soon as every service it
    awaits answers in the end, with a result or with an error. *)
Theorem tick_never_throws env Op w :
  (∀ e w', updateAllStatsInBackground env Op w ≠ Threw e w')
  ∧ (responsive env → is_returned (updateAllStatsInBackground env Op w) = true).
Proof.
  unfold updateAllStatsInBackground, try_catch, console. split.
  - intros e w'. by destruct (try_block env Op w).
  - intros Hresp. rewrite try_block_unfold. destruct Op; [done|]. cbv zeta.
    destruct Hresp as (Hy & Hr & Hu & Hf).
    destruct (findAll_reply env (now w)) as [[] ms|e ms|] eqn:Hfind; try done.
    + destruct (for_of _ _ _) as [[] w1|e w1|w1] eqn:Hloop; try done.
      by apply for_of_responsive in Hloop.
    + by destruct (Hf _ Hfind).
Qed.

Lemma Forall2_fmap_eq {A B} (f : A → B) (l k : list A) :
  Forall2 (λ x y, f y = f x) l k → f <$> k = f <$> l.
Proof. induction 1 as [|x y l k Hxy _ IH]; [done|]. rewrite !fmap_cons. by f_equal. Qed.

(** X2: however a tick ends (returned, stopped by an error, or stuck on a
    service), the table has the same rows in the same order with the same
    id, Artist, title, cover, youtubeid, playlistId and createdAt; and a row
    differs from what it was only if it carries the youtubeid of a row that
    was stale when the tick started.  A tick creates and deletes no row. *)
Theorem tick_keeps_the_rows env Op w :
  let w' := world_of (updateAllStatsInBackground env Op w) in
  Forall2
    (λ r r',
       same_other_columns r r'
       ∧ (r' ≠ r →
          ∃ s, s ∈ Songs w ∧ stale (now w) s ∧ Song.youtubeid s = Song.youtubeid r))
    (Songs w) (Songs w')
  ∧ Song.id <$> Songs w' = Song.id <$> Songs w
  ∧ length (Songs w') = length (Songs w).
Proof.
  cbv zeta.
  assert (Hrows : Forall2
    (λ r r',
       same_other_columns r r'
       ∧ (r' ≠ r →
          ∃ s, s ∈ Songs w ∧ stale (now w) s ∧ Song.youtubeid s = Song.youtubeid r))
    (Songs w) (Songs (world_of (updateAllStatsInBackground env Op w)))).
  { unfold updateAllStatsInBackground. rewrite Songs_after_catch, try_block_unfold.
    destruct Op; cbv zeta.
    { apply Forall2_refl_on. intros r _. split; [apply same_other_columns_refl|done]. }
    destruct (findAll_reply env (now w)) as [[] ms|e ms|]; simpl.
    2,3: apply Forall2_refl_on; intros r _; (split; [apply same_other_columns_refl|done]).
    destruct (for_of_Songs env (filter (stale (now w)) (Songs w))
                (advance ms (emit (Ev_Song_findAll (now w - 10 * 60 * 1000)) w)))
      as [_ Hloop].
    eapply Forall2_impl; [exact Hloop|]. simpl.
    intros r r' [(s & stats & ta & t & Hs & Hy & _ & _ & _ & ->)|[-> _]].
    - split; [apply same_other_columns_set_metrics|]. intros _.
      apply list_elem_of_filter in Hs as [Hstale Hs]. by exists s.
    - split; [apply same_other_columns_refl|done]. }
  split; [exact Hrows|].
  split; [|by rewrite <- (Forall2_length _ _ _ Hrows)].
  apply Forall2_fmap_eq. eapply Forall2_impl; [exact Hrows|].
  by intros r r' [(Hid & _) _].
Qed.

Lemma fetch_urls_app (a b : list Event) : fetch_urls (a ++ b) = fetch_urls a ++ fetch_urls b.
Proof. apply omap_app. Qed.

Lemma fetch_urls_none (evs : list Event) : count is_fetch evs = 0%nat → fetch_urls evs = [].
Proof.
  induction evs as [|ev evs IH]; [done|]. rewrite count_cons.
  destruct ev; simpl; try (intros; exfalso; lia); intros H; apply IH; lia.
Qed.

Lemma for_of_fetch_urls env songs w :
  let o := for_of songs (process_song env) w in
  ∃ evs,
    trace (world_of o) = trace w ++ evs
    ∧ fetch_urls evs `prefix_of` ((λ s, watch_url (Song.youtubeid s)) <$> songs)
    ∧ (is_returned o = true →
       fetch_urls evs = (λ s, watch_url (Song.youtubeid s)) <$> songs)
    ∧ (∀ e, Ev_error_tick e ∉ evs).
Proof.
  cbv zeta. revert w. induction songs as [|s rest IH]; intros w.
  { exists []. simpl. rewrite app_nil_r. split_and!; try done. intros e. apply not_elem_of_nil. }
  rewrite for_of_cons.
  destruct (process_song_trace env s w) as (mid & Htr & Hfetch & _).
  assert (Hquiet : ∀ e, Ev_error_tick e ∉ Ev_youtubedl (watch_url (Song.youtubeid s)) :: mid).
  { intros e Hin. apply elem_of_cons in Hin as [?|Hin]; [done|].
    revert Htr Hin. clear. unfold redis_set, Song_update, sleep.
    iteration env s w; rewrite <- ?app_assoc; simpl; intros Heq%app_inv_head;
      injection Heq as <-; intros Hin;
      repeat (apply elem_of_cons in Hin as [?|Hin]; [done|]); by apply elem_of_nil in Hin. }
  apply fetch_urls_none in Hfetch.
  destruct (process_song env s w) as [[] w1|e w1|w1]; simpl in *.
  - destruct (IH w1) as (evs & Htr' & Hpre & Hall & Hno).
    exists ((Ev_youtubedl (watch_url (Song.youtubeid s)) :: mid) ++ evs).
    rewrite Htr', Htr, <- app_assoc. split; [done|].
    rewrite fetch_urls_app. simpl. rewrite Hfetch. simpl. split_and!.
    + by apply prefix_cons.
    + intros Hr. by rewrite (Hall Hr).
    + intros e Hin. apply elem_of_cons in Hin as [?|Hin]; [done|].
      apply elem_of_app in Hin as [Hin|Hin]; [|by apply (Hno e)].
      apply (Hquiet e). by apply list_elem_of_further.
  - exists (Ev_youtubedl (watch_url (Song.youtubeid s)) :: mid). split; [done|].
    simpl. rewrite Hfetch. split_and!; try done.
    apply prefix_cons, prefix_nil.
  - exists (Ev_youtubedl (watch_url (Song.youtubeid s)) :: mid). split; [done|].
    simpl. rewrite Hfetch. split_and!; try done.
    apply prefix_cons, prefix_nil.
Qed.

(** X3: the extractor is called for the stale rows in table order, one call
    per selected row: the URLs fetched by a tick, in call order, are an
    initial part of the watch URLs of the rows that were stale when it
    started, and all of them when the [try] block runs to its end.  No row
    that was not stale is fetched, and none is fetched twice for one
    selection. *)
Theorem tick_fetches_in_table_order env Op w :
  let o := updateAllStatsInBackground env Op w in
  let expected := (λ s, watch_url (Song.youtubeid s)) <$> filter (stale (now w)) (Songs w) in
  ∃ evs,
    trace (world_of o) = trace w ++ evs
    ∧ fetch_urls evs `prefix_of` expected
    ∧ (∀ w', try_block env Op w = Returned tt w' → fetch_urls evs = expected).
Proof.
  cbv zeta. unfold updateAllStatsInBackground, try_catch, console.
  rewrite try_block_unfold. destruct Op; cbv zeta.
  { exists [Ev_error_tick (ReferenceError "Op")]. split_and!; try done. apply prefix_nil. }
  destruct (findAll_reply env (now w)) as [[] ms|e ms|]; simpl.
  2,3: (eexists; split; [rewrite <- ?app_assoc; reflexivity|]);
       (split; [apply prefix_nil | done]).
  remember (advance ms (emit (Ev_Song_findAll (now w - 10 * 60 * 1000)) w)) as w1 eqn:Hw1.
  assert (Htr1 : trace w1 = trace w ++ [Ev_Song_findAll (now w - 10 * 60 * 1000)])
    by (by subst w1).
  clear Hw1.
  destruct (for_of_fetch_urls env (filter (stale (now w)) (Songs w)) w1)
    as (evs & Htr & Hpre & Hall & _).
  destruct (for_of _ _ w1) as [[] w2|e w2|w2]; simpl in *.
  - exists (Ev_Song_findAll (now w - 10 * 60 * 1000) :: evs).
    rewrite Htr, Htr1, <- app_assoc. split_and!; try done. intros w' _. by apply Hall.
  - exists (Ev_Song_findAll (now w - 10 * 60 * 1000) :: evs ++ [Ev_error_tick e]).
    rewrite Htr, Htr1, <- !app_assoc. split_and!; try done.
    change (fetch_urls (evs ++ [Ev_error_tick e]) `prefix_of`
              (λ s, watch_url (Song.youtubeid s)) <$> filter (stale (now w)) (Songs w)).
    rewrite fetch_urls_app. simpl. by rewrite app_nil_r.
  - exists (Ev_Song_findAll (now w - 10 * 60 * 1000) :: evs).
    rewrite Htr, Htr1, <- app_assoc. by split_and!.
Qed.

(** The sample tick fetches its two stale rows, oldest in the table first. *)
Example sample_tick_fetch_order :
  fetch_urls (trace (world_of (updateAllStatsInBackground env_up Sequelize_Op sample_world)))
  = [ watch_url "abc123"; watch_url "xyz789" ].
Proof. by vm_compute. Qed.

(** ** The cache *)

Lemma process_song_kv env song w :
  let o := process_song env song w in
  kv (world_of o) = kv w
  ∨ ∃ stats t,
      now w ≤ t
      ∧ kv (world_of o)
        = <[cache_key (Song.youtubeid song) := (JSON_stringify stats, t + 60 * 1000)]> (kv w).
Proof.
  cbv zeta.
  iteration env song w; try (left; done); right; do 2 eexists; (split; [|reflexivity]); lia.
Qed.

Lemma for_of_kv env songs w k :
  let o := for_of songs (process_song env) w in
  kv (world_of o) !! k = kv w !! k
  ∨ ∃ s stats t,
      s ∈ songs ∧ k = cache_key (Song.youtubeid s) ∧ now w ≤ t
      ∧ kv (world_of o) !! k = Some (JSON_stringify stats, t + 60 * 1000).
Proof.
  cbv zeta. revert w. induction songs as [|s rest IH]; intros w; [by left|].
  rewrite for_of_cons.
  destruct (process_song_clock env s w) as [Hmono _].
  destruct (process_song_kv env s w) as [Hkv|(stats & t & Ht & Hkv)];
    destruct (process_song env s w) as [[] w1|e w1|w1]; simpl in *.
  2,3: by left; rewrite Hkv.
  - destruct (IH w1) as [Hsame|(s' & stats' & t' & Hs' & -> & Ht' & Hk)].
    + left. by rewrite Hsame, Hkv.
    + right. exists s', stats', t'. split_and!; try done; [by apply list_elem_of_further|lia].
  - destruct (IH w1) as [Hsame|(s' & stats' & t' & Hs' & -> & Ht' & Hk)].
    + rewrite Hsame, Hkv. destruct (decide (k = cache_key (Song.youtubeid s))) as [->|Hne].
      * right. exists s, stats, t. rewrite lookup_insert_eq.
        split_and!; try done. apply list_elem_of_here.
      * left. by rewrite lookup_insert_ne.
    + right. exists s', stats', t'. split_and!; try done; [by apply list_elem_of_further|lia].
  - destruct (decide (k = cache_key (Song.youtubeid s))) as [->|Hne].
    + right. exists s, stats, t. rewrite Hkv, lookup_insert_eq.
      split_and!; try done. apply list_elem_of_here.
    + left. by rewrite Hkv, lookup_insert_ne.
  - destruct (decide (k = cache_key (Song.youtubeid s))) as [->|Hne].
    + right. exists s, stats, t. rewrite Hkv, lookup_insert_eq.
      split_and!; try done. apply list_elem_of_here.
    + left. by rewrite Hkv, lookup_insert_ne.
Qed.

Lemma kv_after_catch (m : Async unit) w :
  kv (world_of (try_catch m (λ err, console (Ev_error_tick err)) w)) = kv (world_of (m w)).
Proof. unfold try_catch, console. by destruct (m w). Qed.

(** X4: a tick touches the cache only under the keys of the songs it
    selected.  However it ends, every key holds what it held before, or it
    is the key [ytstats:<youtubeid>] of a row that was stale at the start and
    holds the JSON text of a fetch result with an expiry at least 60 seconds
    after the start of the tick; in particular a tick removes no key. *)
Theorem tick_writes_only_its_cache_keys env Op w k :
  let w' := world_of (updateAllStatsInBackground env Op w) in
  (kv w' !! k = kv w !! k
   ∨ ∃ s stats expiry,
       s ∈ Songs w ∧ stale (now w) s ∧ k = "ytstats:" +:+ Song.youtubeid s
       ∧ now w + 60 * 1000 ≤ expiry
       ∧ kv w' !! k = Some (JSON_stringify stats, expiry))
  ∧ (is_Some (kv w !! k) → is_Some (kv w' !! k)).
Proof.
  cbv zeta.
  assert (Hk : kv (world_of (updateAllStatsInBackground env Op w)) !! k = kv w !! k
   ∨ ∃ s stats expiry,
       s ∈ Songs w ∧ stale (now w) s ∧ k = "ytstats:" +:+ Song.youtubeid s
       ∧ now w + 60 * 1000 ≤ expiry
       ∧ kv (world_of (updateAllStatsInBackground env Op w)) !! k
         = Some (JSON_stringify stats, expiry)).
  { unfold updateAllStatsInBackground. rewrite kv_after_catch, try_block_unfold.
    destruct Op; cbv zeta; [by left|].
    destruct (findAll_reply env (now w)) as [[] ms|e ms|]; simpl; try by left.
    destruct (for_of_kv env (filter (stale (now w)) (Songs w))
                (advance ms (emit (Ev_Song_findAll (now w - 10 * 60 * 1000)) w)) k)
      as [Hsame|(s & stats & t & Hs & -> & Ht & Hlook)]; [by left|].
    right. apply list_elem_of_filter in Hs as [Hstale Hs].
    exists s, stats, (t + 60 * 1000). simpl in Ht. split_and!; try done. lia. }
  split; [exact Hk|].
  destruct Hk as [->|(s & stats & expiry & _ & _ & _ & _ & ->)]; [done|by eexists].
Qed.

(** X5: the cache is written before the table, so the table is never ahead
    of the cache: whenever an iteration has changed the table, the cache
    holds, under the song's key and for at least 60 seconds from the start of
    the iteration, the JSON text of the very views and likes that every row
    carrying the song's youtubeid now has. *)
Theorem table_never_ahead_of_cache env song w :
  let o := process_song env song w in
  let y := Song.youtubeid song in
  Songs (world_of o) ≠ Songs w →
  ∃ stats expiry,
    kv (world_of o) !! cache_key y = Some (JSON_stringify stats, expiry)
    ∧ now w + 60 * 1000 ≤ expiry
    ∧ ∀ r, r ∈ Songs (world_of o) → Song.youtubeid r = y →
        Song.views r = CStr (views stats) ∧ Song.likes r = CStr (likes stats).
Proof.
  cbv zeta.
  iteration env song w; intros Hchanged; try done;
    do 2 eexists; (split; [apply lookup_insert_eq|]); (split; [lia|]);
    intros r Hr Hy; apply list_elem_of_fmap in Hr as (r0 & -> & _);
    unfold update_where in *;
    destruct (decide (Song.youtubeid r0 = Song.youtubeid song)); done.
Qed.

(** X5 on the sample table: the first stale song is fetched, cached and
    written. *)
Lemma sample_table_not_ahead_of_cache :
  let s := song 1 "abc123" 100 10 (minutes 89) in
  let o := process_song env_up s sample_world in
  ∃ stats expiry,
    kv (world_of o) !! cache_key "abc123" = Some (JSON_stringify stats, expiry)
    ∧ now sample_world + 60 * 1000 ≤ expiry
    ∧ ∀ r, r ∈ Songs (world_of o) → Song.youtubeid r = "abc123" →
        Song.views r = CStr (views stats) ∧ Song.likes r = CStr (likes stats).
Proof.
  cbv zeta.
  apply (table_never_ahead_of_cache env_up (song 1 "abc123" 100 10 (minutes 89)) sample_world).
  by vm_compute.
Defined.

(** The converse fails: with a table that rejects the write, the cache holds
    the new counts while the row keeps the old ones. *)
Example sample_cache_ahead_of_table :
  let s := song 1 "abc123" 100 10 (minutes 89) in
  let o := process_song env_storage_down s sample_world in
  fst <$> kv (world_of o) !! cache_key "abc123"
    = Some (JSON_stringify {| views := "150"; likes := "12" |})
  ∧ Songs (world_of o) = Songs sample_world.
Proof. by vm_compute. Qed.

(** X6: ticks are started every [TICK_INTERVAL_MS] with no test for a tick
    still running, and a tick that selects two songs or more cannot be done
    by then: when its [try] block runs to the end, at least one full period
    has passed, however fast the services are. *)
Theorem tick_with_two_songs_outlasts_the_interval env Op w w' :
  (2 ≤ length (filter (stale (now w)) (Songs w)))%nat →
  try_block env Op w = Returned tt w' →
  now w + TICK_INTERVAL_MS ≤ now w'
  ∧ now (world_of (updateAllStatsInBackground env Op w)) = now w'.
Proof.
  intros Htwo Hrun.
  destruct (tick_trace env Op w) as (evs & _ & _ & _ & _ & Hclock & Hret).
  destruct (Hret w' Hrun) as (Hn & _ & _). cbv zeta in Hclock.
  assert (Hw : world_of (updateAllStatsInBackground env Op w) = w').
  { unfold updateAllStatsInBackground, try_catch. by rewrite Hrun. }
  rewrite Hw in *. split; [|done].
  unfold TICK_INTERVAL_MS, COOLDOWN_MS in *. rewrite Hn in Hclock. lia.
Qed.

(** X6 on the sample table, whose tick selects two songs. *)
Lemma sample_tick_outlasts_the_interval :
  now sample_world + TICK_INTERVAL_MS
  ≤ now (world_of (try_block env_up Sequelize_Op sample_world)).
Proof.
  apply (tick_with_two_songs_outlasts_the_interval env_up Sequelize_Op sample_world).
  - vm_compute. lia.
  - by vm_compute.
Defined.

(** * The download service *)

(** ** [safeBasename] *)

Section Basename.
Import Ytdlp.

Lemma elem_of_strip_forbidden c s :
  c ∈ strip_forbidden s → is_forbidden c = false ∧ c ∈ s.
Proof.
  unfold strip_forbidden. rewrite list_elem_of_In, List.filter_In, <- list_elem_of_In.
  intros [Hin Hc]. split; [by destruct (is_forbidden c)|done].
Qed.

Lemma elem_of_collapse_spaces b c s :
  c ∈ collapse_spaces b s → c = 32%N ∨ c ∈ s.
Proof.
  revert b. induction s as [|x s IH]; intros b; simpl; [by right|].
  destruct (is_space x); [destruct b|].
  - intros Hin. destruct (IH _ Hin); [by left|right; by apply list_elem_of_further].
  - intros [->|Hin]%elem_of_cons; [by left|].
    destruct (IH _ Hin); [by left|right; by apply list_elem_of_further].
  - intros [->|Hin]%elem_of_cons; [right; apply list_elem_of_here|].
    destruct (IH _ Hin); [by left|right; by apply list_elem_of_further].
Qed.

Lemma elem_of_trim_start c s : c ∈ trim_start s → c ∈ s.
Proof.
  induction s as [|x s IH]; simpl; [done|].
  destruct (is_space x); [|done]. intros Hin. by apply list_elem_of_further, IH.
Qed.

Lemma elem_of_trim_end c s : c ∈ trim_end s → c ∈ s.
Proof.
  induction s as [|x s IH]; simpl; [done|].
  destruct (trim_end s) as [|k kept].
  - destruct (is_space x); [by intros ?%elem_of_nil|].
    intros ->%list_elem_of_singleton. apply list_elem_of_here.
  - intros [->|Hin]%elem_of_cons; [apply list_elem_of_here|].
    by apply list_elem_of_further, IH.
Qed.

Lemma single_spaced_collapse b s : single_spaced b (collapse_spaces b s).
Proof.
  revert b. induction s as [|x s IH]; intros b; simpl; [done|].
  destruct (is_space x) eqn:Hx; [destruct b|]; simpl.
  - apply IH.
  - split_and!; [done..|apply IH].
  - rewrite Hx. apply IH.
Qed.

Lemma single_spaced_weaken s : single_spaced true s → single_spaced false s.
Proof. destruct s as [|x s]; simpl; [done|]. destruct (is_space x); [by intros (_ & ? & _)|done]. Qed.

Lemma single_spaced_trim_start b s :
  single_spaced b s →
  single_spaced false (trim_start s) ∧ ∀ c, head (trim_start s) = Some c → is_space c = false.
Proof.
  revert b. induction s as [|x s IH]; intros b; simpl; [done|].
  destruct (is_space x) eqn:Hx.
  - intros (_ & _ & Hs). by apply (IH true).
  - intros Hs. simpl. rewrite Hx. split; [done|]. by intros c [= <-].
Qed.

Lemma single_spaced_trim_end b s : single_spaced b s → single_spaced b (trim_end s).
Proof.
  revert b. induction s as [|x s IH]; intros b; simpl; [done|].
  destruct (trim_end s) as [|k kept] eqn:Hk.
  - destruct (is_space x) eqn:Hx; [done|]. intros _. simpl. by rewrite Hx.
  - destruct (is_space x) eqn:Hx; simpl; rewrite Hx.
    + intros (-> & -> & Hs). split_and!; [done..|]. by apply (IH true).
    + intros Hs. by apply (IH false).
Qed.

Lemma last_trim_end s c : last (trim_end s) = Some c → is_space c = false.
Proof.
  induction s as [|x s IH]; simpl; [done|].
  destruct (trim_end s) as [|k kept] eqn:Hk.
  - destruct (is_space x) eqn:Hx; [done|]. by intros [= <-].
  - rewrite last_cons. destruct (last (k :: kept)) eqn:Hl; [|by apply last_None in Hl].
    intros [= <-]. by apply IH.
Qed.

Lemma head_trim_end s c :
  (∀ c, head s = Some c → is_space c = false) →
  head (trim_end s) = Some c → is_space c = false.
Proof.
  destruct s as [|x s]; simpl; [done|]. intros Hhead.
  destruct (trim_end s); [destruct (is_space x) eqn:Hx; [done|]|];
    intros [= <-]; by apply Hhead.
Qed.

(** What the three passes of line 109-112 leave. *)
Lemma cleaned_is_tidy s :
  let cleaned := trim (collapse_spaces false (strip_forbidden s)) in
  (∀ c, c ∈ cleaned → is_forbidden c = false)
  ∧ single_spaced false cleaned
  ∧ (∀ c, head cleaned = Some c → is_space c = false)
  ∧ (∀ c, last cleaned = Some c → is_space c = false).
Proof.
  cbv zeta. unfold trim.
  destruct (single_spaced_trim_start false _ (single_spaced_collapse false (strip_forbidden s)))
    as [Hs Hh].
  split_and!.
  - intros c Hc%elem_of_trim_end%elem_of_trim_start%elem_of_collapse_spaces.
    destruct Hc as [->|Hc]; [done|]. by apply elem_of_strip_forbidden in Hc as [? _].
  - by apply single_spaced_trim_end.
  - intros c. by apply head_trim_end.
  - apply last_trim_end.
Qed.

Lemma file_is_tidy : tidy_name (units "file").
Proof.
  split_and!; try done.
  - intros c Hc. vm_compute in Hc.
    repeat (apply elem_of_cons in Hc as [->|Hc]; [done|]). by apply elem_of_nil in Hc.
  - by intros c [= <-].
  - by intros c [= <-].
Qed.

Lemma safeBasename_tidy s fallback : tidy_name (safeBasename s fallback).
Proof.
  unfold safeBasename. cbv zeta.
  destruct (or_string _ _) as [p|]; [|apply file_is_tidy].
  destruct (cleaned_is_tidy p) as (Hf & Hs & Hh & Hl).
  destruct (trim _) as [|c cleaned]; [apply file_is_tidy|].
  by split_and!.
Qed.

Lemma strip_forbidden_id s :
  (∀ c, c ∈ s → is_forbidden c = false) → strip_forbidden s = s.
Proof.
  induction s as [|x s IH]; intros H; simpl; [done|].
  rewrite (H x) by apply list_elem_of_here. simpl. f_equal.
  apply IH. intros c Hc. by apply H, list_elem_of_further.
Qed.

Lemma collapse_spaces_id b s : single_spaced b s → collapse_spaces b s = s.
Proof.
  revert b. induction s as [|x s IH]; intros b; simpl; [done|].
  destruct (is_space x).
  - intros (-> & -> & Hs). f_equal. by apply IH.
  - intros Hs. f_equal. by apply IH.
Qed.

Lemma trim_start_id s : (∀ c, head s = Some c → is_space c = false) → trim_start s = s.
Proof. destruct s as [|x s]; simpl; [done|]. intros H. by rewrite (H x). Qed.

Lemma trim_end_id s : (∀ c, last s = Some c → is_space c = false) → trim_end s = s.
Proof.
  induction s as [|x s IH]; simpl; [done|]. intros H.
  destruct s as [|y s].
  - simpl. by rewrite (H x).
  - rewrite IH; [done|]. intros c Hc. apply H. by rewrite last_cons, Hc.
Qed.

Lemma safeBasename_of_tidy s fallback : tidy_name s → safeBasename (Some s) fallback = s.
Proof.
  intros (Hne & Hf & Hs & Hh & Hl). unfold safeBasename. cbv zeta.
  destruct s as [|c s]; [done|]. simpl or_string. unfold trim.
  rewrite strip_forbidden_id, collapse_spaces_id, trim_start_id, trim_end_id by done.
  done.
Qed.

End Basename.

(** X7: whatever it is given, [safeBasename] returns a name that is not
    empty and holds none of the ten characters of its class; in particular
    no slash, no backslash and no percent sign, so the name is one path
    component and adds no field to the output template of yt-dlp. *)
Theorem safeBasename_is_a_plain_component s fallback :
  Ytdlp.safeBasename s fallback ≠ []
  ∧ (∀ c, c ∈ [47; 92; 63; 37; 42; 58; 124; 34; 60; 62]%N →
          c ∉ Ytdlp.safeBasename s fallback).
Proof.
  destruct (safeBasename_tidy s fallback) as (Hne & Hf & _). split; [done|].
  intros c Hc Hin. specialize (Hf c Hin). unfold Ytdlp.is_forbidden in Hf.
  by rewrite bool_decide_eq_false in Hf.
Qed.

(** X8: in the name [safeBasename] returns, white space is tidy: the only
    white-space character left is U+0020 (tabs, line breaks, no-break
    spaces are gone), no two spaces are adjacent, and the name neither starts
    nor ends with one. *)
Theorem safeBasename_tidies_white_space s fallback :
  let name := Ytdlp.safeBasename s fallback in
  Ytdlp.single_spaced false name
  ∧ (∀ c, c ∈ name → Ytdlp.is_space c = true → c = 32%N)
  ∧ (∀ i c d, name !! i = Some c → name !! S i = Some d →
       ¬ (Ytdlp.is_space c = true ∧ Ytdlp.is_space d = true))
  ∧ (∀ c, head name = Some c → Ytdlp.is_space c = false)
  ∧ (∀ c, last name = Some c → Ytdlp.is_space c = false).
Proof.
  cbv zeta. destruct (safeBasename_tidy s fallback) as (_ & _ & Hs & Hh & Hl).
  split_and!; try done.
  - clear Hh Hl. revert Hs. generalize false. generalize (Ytdlp.safeBasename s fallback).
    intros l. induction l as [|x l IH]; intros b Hs c Hc Hsp; [by apply elem_of_nil in Hc|].
    simpl in Hs. apply elem_of_cons in Hc as [->|Hc].
    + rewrite Hsp in Hs. by destruct Hs.
    + destruct (Ytdlp.is_space x); [destruct Hs as (_ & _ & Hs)|]; by eapply IH.
  - clear Hh Hl. revert Hs. generalize false. generalize (Ytdlp.safeBasename s fallback).
    intros l. induction l as [|x l IH]; intros b Hs i c d Hc Hd [Hsc Hsd]; [done|].
    simpl in Hs. destruct i as [|i]; simpl in *.
    + injection Hc as ->. rewrite Hsc in Hs. destruct Hs as (_ & _ & Hs).
      destruct l as [|y l]; [done|]. injection Hd as ->. simpl in Hs.
      rewrite Hsd in Hs. by destruct Hs as (_ & ? & _).
    + destruct (Ytdlp.is_space x); [destruct Hs as (_ & _ & Hs)|];
        by apply (IH _ Hs i c d Hc Hd).
Qed.

(** X9: [safeBasename] changes nothing in a name that is already tidy (not
    empty, free of the ten characters, white space tidy), whatever the
    fallback; hence cleaning twice is cleaning once. *)
Theorem safeBasename_idempotent s fallback fallback' :
  (∀ name, Ytdlp.tidy_name name → Ytdlp.safeBasename (Some name) fallback' = name)
  ∧ Ytdlp.safeBasename (Some (Ytdlp.safeBasename s fallback)) fallback'
    = Ytdlp.safeBasename s fallback.
Proof.
  split; [intros name; apply safeBasename_of_tidy|].
  apply safeBasename_of_tidy, safeBasename_tidy.
Qed.

Lemma trim_start_all_spaces b s :
  (∀ c, c ∈ s → Ytdlp.is_space c = true) →
  Ytdlp.trim_start (Ytdlp.collapse_spaces b s) = [].
Proof.
  revert b. induction s as [|x s IH]; intros b H; simpl; [done|].
  rewrite (H x) by apply list_elem_of_here.
  assert (Hs : ∀ c, c ∈ s → Ytdlp.is_space c = true)
    by (intros c Hc; by apply H, list_elem_of_further).
  destruct b; simpl; by apply IH.
Qed.

(** X10: the fallback only stands in for a missing or empty first argument,
    not for one that cleans to nothing: a non-empty name made only of
    characters of the class and of white space comes back as the literal
    file, whatever fallback is given. *)
Theorem safeBasename_of_nothing_usable s fallback :
  s ≠ [] →
  (∀ c, c ∈ s → Ytdlp.is_forbidden c = true ∨ Ytdlp.is_space c = true) →
  Ytdlp.safeBasename (Some s) fallback = Ytdlp.units "file".
Proof.
  intros Hne Hall. unfold Ytdlp.safeBasename. cbv zeta.
  destruct s as [|c s]; [done|]. simpl Ytdlp.or_string. unfold Ytdlp.trim.
  rewrite trim_start_all_spaces; [done|].
  intros x Hx. apply elem_of_strip_forbidden in Hx as [Hok Hx].
  destruct (Hall x Hx) as [Hbad|Hsp]; [congruence|done].
Qed.

(** X10 on a title of question marks and spaces, with a fallback at hand. *)
Lemma safeBasename_of_question_marks :
  Ytdlp.safeBasename (Some (Ytdlp.units "?? ?")) (Some (Ytdlp.units "video"))
  = Ytdlp.units "file".
Proof.
  apply safeBasename_of_nothing_usable; [done|].
  intros c Hc. vm_compute in Hc.
  repeat (apply elem_of_cons in Hc as [->|Hc]; [by vm_compute; auto|]).
  by apply elem_of_nil in Hc.
Defined.

(** ** The download helpers *)

(** X11: when yt-dlp and the listing of the download directory succeed, a
    download helper answers with a listed file whose name starts with the
    base name, one that ends in the wanted extension whenever a listed file
    with that start does; and it throws its not-found error exactly when no
    listed file starts with the base name.  The file need not be the one
    just written: any listed name with that start qualifies. *)
Theorem download_answers_a_listed_file dflt ext what title id now files :
  let baseName := Ytdlp.safeBasename (Some (Ytdlp.name_template dflt title id now)) None in
  match Ytdlp.download dflt ext what title id now (Ytdlp.Ok tt) (Ytdlp.Ok files) with
  | Ytdlp.Ok f =>
      f ∈ files ∧ baseName `prefix_of` f
      ∧ ((∃ g, g ∈ files ∧ baseName `prefix_of` g ∧ Ytdlp.units ext `suffix_of` g) →
         Ytdlp.units ext `suffix_of` f)
  | Ytdlp.Thrown m =>
      m = what +:+ " file not found after download"
      ∧ ∀ g, g ∈ files → ¬ baseName `prefix_of` g
  end.
Proof.
  cbv zeta. unfold Ytdlp.download. cbv zeta.
  set (baseName := Ytdlp.safeBasename _ None).
  assert (Hbase : baseName ≠ []) by apply safeBasename_tidy.
  unfold Ytdlp.find_produced.
  destruct (list_find (λ f, baseName `prefix_of` f ∧ Ytdlp.units ext `suffix_of` f) files)
    as [[i f]|] eqn:Hfirst; simpl.
  - apply list_find_Some in Hfirst as (Hi & [Hpre Hsuf] & _).
    destruct f as [|c f].
    { apply prefix_nil_inv in Hpre. done. }
    simpl. split_and!; try done. by eapply list_elem_of_lookup_2.
  - apply list_find_None in Hfirst. rewrite Forall_forall in Hfirst.
    destruct (list_find (λ f, baseName `prefix_of` f) files) as [[i f]|] eqn:Hsecond; simpl.
    + apply list_find_Some in Hsecond as (Hi & Hpre & _).
      destruct f as [|c f].
      { apply prefix_nil_inv in Hpre. done. }
      split_and!; try done; [by eapply list_elem_of_lookup_2|].
      intros (g & Hg & Hgp & Hgs). by destruct (Hfirst g Hg).
    + apply list_find_None in Hsecond. rewrite Forall_forall in Hsecond. by split.
Qed.

(** A helper asked for video T with id abc when the directory also holds the
    files of video T with id abcd: it answers with the other video's MP3. *)
Example downloadAudioMP3_can_answer_another_file :
  Ytdlp.downloadAudioMP3 (Some (Ytdlp.units "T")) (Some (Ytdlp.units "abc")) 0
    (Ytdlp.Ok tt)
    (Ytdlp.Ok [ Ytdlp.units "T-abcd.webm"; Ytdlp.units "T-abcd.mp3"; Ytdlp.units "T-abc.mp3" ])
  = Ytdlp.Ok (Ytdlp.units "T-abcd.mp3").
Proof. by vm_compute. Qed.

(** ** [cleanupDownloads] *)

Lemma older_than_spec limit now m :
  Ytdlp.older_than limit now m = true
  ↔ ∃ max, limit = Some max ∧ (inject_Z max < inject_Z now - m)%Q.
Proof.
  unfold Ytdlp.older_than. destruct limit as [max|];
    [|split; [done | by intros (? & ? & _)]].
  rewrite negb_true_iff. split.
  - intros H. exists max. split; [done|]. apply Qnot_le_lt. intros Hle.
    apply Qle_bool_iff in Hle. congruence.
  - intros (? & [= <-] & Hlt). destruct (Qle_bool _ _) eqn:Hle; [|done].
    apply Qle_bool_iff in Hle. by apply Qlt_not_le in Hlt.
Qed.

(** X12: a run of the cleanup removes exactly the listed entries that are
    regular files, last modified strictly more than the limit ago, and that
    [unlink] lets go.  A directory, an entry [stat] fails on, a file of
    exactly the age limit or younger is never unlinked; nothing at all is when
    the limit is [NaN] or when the listing fails. *)
Theorem cleanupDownloads_removes_only_old_files limit now dir f :
  f ∈ Ytdlp.removed (Ytdlp.cleanupDownloads limit now dir)
  ↔ ∃ files m max,
      Ytdlp.listing dir = Ytdlp.Ok files ∧ f ∈ files
      ∧ Ytdlp.stat dir f = Ytdlp.Stat true m
      ∧ limit = Some max
      ∧ (inject_Z max < inject_Z now - m)%Q
      ∧ Ytdlp.unlink_succeeds dir f = true.
Proof.
  unfold Ytdlp.cleanupDownloads.
  destruct (Ytdlp.listing dir) as [files|msg]; simpl.
  - rewrite !list_elem_of_In, !List.filter_In, <- !list_elem_of_In.
    unfold Ytdlp.selected. split.
    + intros [[Hin Hsel] Hunlink].
      destruct (Ytdlp.stat dir f) as [|isFile m]; [done|].
      apply andb_true_iff in Hsel as [-> Hold].
      apply older_than_spec in Hold as (max & -> & Hlt). by exists files, m, max.
    + intros (files' & m & max & [= <-] & Hin & -> & -> & Hlt & Hunlink).
      split_and!; try done. simpl.
      apply (proj2 (older_than_spec (Some max) now m)). by exists max.
  - split; [by intros ?%elem_of_nil|]. by intros (? & ? & ? & ? & _).
Qed.

(** X13: the cleanup never raises, and its log line counts the [unlink]
    calls, not the files gone: the job logs exactly when it called [unlink]
    at least once, the number logged is the number of calls, the files
    removed are among those and can be fewer; it warns exactly when the
    listing failed, and then it has called [unlink] on nothing. *)
Theorem cleanupDownloads_logs_its_attempts limit now dir :
  let r := Ytdlp.cleanupDownloads limit now dir in
  (Ytdlp.logged r = None ↔ Ytdlp.toDelete r = [])
  ∧ (∀ n, Ytdlp.logged r = Some n → n = length (Ytdlp.toDelete r))
  ∧ Ytdlp.removed r ⊆ Ytdlp.toDelete r
  ∧ (length (Ytdlp.removed r) ≤ length (Ytdlp.toDelete r))%nat
  ∧ (is_Some (Ytdlp.warned r) ↔ ∃ msg, Ytdlp.listing dir = Ytdlp.Thrown msg)
  ∧ (is_Some (Ytdlp.warned r) → Ytdlp.toDelete r = []).
Proof.
  cbv zeta. unfold Ytdlp.cleanupDownloads.
  destruct (Ytdlp.listing dir) as [files|msg]; simpl.
  - set (chosen := List.filter _ files). split_and!.
    + destruct (decide (length chosen = 0%nat)) as [H0|Hn]; [|split; [done|]].
      * split; [|done]. intros _. by apply length_zero_iff_nil.
      * intros H. by rewrite H in Hn.
    + intros n. destruct (decide _); [done|]. by intros [= <-].
    + intros x. rewrite !list_elem_of_In, List.filter_In. by intros [? _].
    + apply List.filter_length_le.
    + split; [by intros [? ?]|]. by intros [? ?].
    + by intros [? ?].
  - split_and!; try done. split; [by exists msg|by eexists].
Qed.

(** On the sample directory the job logs one deletion and removes nothing. *)
Example sample_cleanup_logs_more_than_it_removes :
  Ytdlp.cleanupDownloads (Some 3600000) 10000000 sample_directory
  = {| Ytdlp.toDelete := [ Ytdlp.units "busy.mp3" ]; Ytdlp.removed := [];
       Ytdlp.logged := Some 1%nat; Ytdlp.warned := None |}.
Proof. by vm_compute. Qed.

(** ** The admin panel *)

Section Panel.
Import Admin.

Lemma isAuthenticated_anonymous st next :
  truthy (userId st) = false → isAuthenticated st next = (st, Redirect "/admin/login").
Proof. unfold isAuthenticated. by intros ->. Qed.

Lemma isAuthenticated_session st next :
  truthy (userId st) = true → isAuthenticated st next = next st.
Proof. unfold isAuthenticated. by intros ->. Qed.

Lemma login_refused bk username password st :
  ¬ accepted bk (Users (db st)) username password →
  (login bk username password st).1 = st.
Proof.
  intros Hno. unfold login.
  destruct (User_findOne _ _) as [user|] eqn:Hfind; [|done].
  destruct (compare bk password _) eqn:Hcmp; [|done].
  destruct Hno. by exists user.
Qed.

Lemma handle_anonymous bk now req st :
  truthy (userId st) = false →
  (∀ u p, req = POST_admin_login u p → ¬ accepted bk (Users (db st)) u p) →
  (handle bk now req st).1 = st
  ∧ (guarded req = true → (handle bk now req st).2 = Redirect "/admin/login").
Proof.
  intros Hanon Hlogin.
  destruct req; simpl; rewrite ?isAuthenticated_anonymous by done;
    unfold querying; try (by destruct (store_answers bk now)).
  destruct (store_answers bk now); [|done].
  split; [|done]. apply login_refused. by apply Hlogin.
Qed.

Lemma serve_cons bk now req reqs st :
  serve bk ((now, req) :: reqs) st
  = ((serve bk reqs (handle bk now req st).1).1,
     (handle bk now req st).2 :: (serve bk reqs (handle bk now req st).1).2).
Proof.
  cbn [serve]. destruct (handle bk now req st) as [st1 answer]. cbn [fst snd].
  by destruct (serve bk reqs st1).
Qed.

Lemma User_findOne_Some username users user :
  User_findOne username users = Some user → user ∈ users ∧ User.username user = username.
Proof.
  unfold User_findOne. destruct (list_find _ users) as [[i u]|] eqn:Hfind; [|done].
  intros [= <-]. apply list_find_Some in Hfind as (Hi & Hu & _).
  split; [by eapply list_elem_of_lookup_2|done].
Qed.

Lemma User_findOne_app_new username users user :
  User_findOne username users = None →
  User.username user = username →
  User_findOne username (users ++ [user]) = Some user.
Proof.
  unfold User_findOne. intros Hnone Hname.
  destruct (list_find _ users) as [?|] eqn:Hfind; [done|].
  rewrite list_find_app_r by done. simpl.
  by rewrite decide_True.
Qed.

Lemma User_findOne_saved username users user passwordHash :
  User_findOne username users = Some user →
  User_findOne username
    ((λ u, if decide (User.id u = User.id user)
           then {| User.id := User.id u; User.username := User.username u;
                   User.passwordHash := passwordHash |}
           else u) <$> users)
  = Some {| User.id := User.id user; User.username := User.username user;
            User.passwordHash := passwordHash |}.
Proof.
  unfold User_findOne. rewrite list_find_fmap.
  set (save := λ u : User.t, if decide (User.id u = User.id user) then _ else u).
  rewrite (list_find_ext ((λ u, User.username u = username) ∘ save)
             (λ u, User.username u = username)).
  - destruct (list_find _ users) as [[i u]|]; [|done]. simpl.
    intros [= ->]. unfold save. by rewrite decide_True.
  - intros u. unfold save. simpl. by destruct (decide _).
Qed.

Lemma User_findByPk_session st :
  session_has_user st → truthy (userId st) = true →
  is_Some (User_findByPk (userId st) (Users (db st))).
Proof.
  intros Hinv Hs. destruct (userId st) as [n|] eqn:Hid; [|done].
  destruct (Hinv n Hid) as (u & Hin & Hu). simpl.
  destruct (list_find_elem_of (λ u, User.id u = n) _ u Hin Hu) as [[i v] ->].
  by eexists.
Qed.

Lemma handle_session_has_user bk now req st :
  session_has_user st → session_has_user (handle bk now req st).1.
Proof.
  intros Hinv.
  assert (∀ next, (∀ st, session_has_user st → session_has_user (next st).1) →
            session_has_user (isAuthenticated st next).1) as Hguard.
  { intros next Hnext. unfold isAuthenticated. destruct (truthy _); [by apply Hnext|done]. }
  assert (∀ on_error next st, session_has_user st →
            (∀ st, session_has_user st → session_has_user (next st).1) →
            session_has_user (querying bk now on_error next st).1) as Hquery.
  { intros on_error next st0 H0 Hnext. unfold querying.
    destruct (store_answers bk now); [by apply Hnext|done]. }
  destruct req; simpl; try done;
    try (apply Hguard; intros st0 H0); try (apply Hquery; [done|]; clear dependent st;
    intros st Hinv); try done.
  - unfold login. destruct (User_findOne _ _) as [user|] eqn:Hfind; [|done].
    destruct (compare bk _ _); [|done]. simpl.
    intros n [= <-]. apply User_findOne_Some in Hfind as [Hin _]. by exists user.
  - unfold add_song. by destruct (Playlist_findOne _ _).
  - unfold update_password. destruct (User_findByPk _ _) as [user|]; [|done].
    simpl. intros n Hn. destruct (Hinv n Hn) as (u & Hin & Hu).
    eexists. split; [by apply list_elem_of_fmap_2|].
    by destruct (decide _).
Qed.

End Panel.

(** X14: a client without a session id that never sends accepted
    credentials changes nothing.  Whatever it requests, in any order and
    whatever the store and bcrypt do, the tables and its session are as
    before, and each of the seven guarded routes answers with the redirect
    to /admin/login. *)
Theorem anonymous_client_changes_nothing bk reqs st :
  Admin.truthy (Admin.userId st) = false →
  (∀ now u p, (now, Admin.POST_admin_login u p) ∈ reqs →
     ¬ Admin.accepted bk (Admin.Users (Admin.db st)) u p) →
  (Admin.serve bk reqs st).1 = st
  ∧ Forall2 (λ req answer,
       Admin.guarded req.2 = true → answer = Admin.Redirect "/admin/login")
      reqs (Admin.serve bk reqs st).2.
Proof.
  intros Hanon. induction reqs as [|[now req] reqs IH]; intros Hlogin.
  - split; [done|constructor].
  - rewrite serve_cons.
    destruct (handle_anonymous bk now req st Hanon) as [Hst Hanswer].
    { intros u p ->. apply (Hlogin now). apply list_elem_of_here. }
    rewrite Hst. destruct IH as [IHst IHanswers].
    { intros t u p Hin. apply (Hlogin t). by apply list_elem_of_further. }
    split; [done|]. by constructor.
Qed.

(** On the sample store an anonymous client that tries a wrong password and
    then every guarded route is redirected each time and changes nothing. *)
Lemma sample_anonymous_client :
  (Admin.serve sample_backend
     [ (1, Admin.POST_admin_login "admin" "guess");
       (2, Admin.POST_admin_delete_song "abc123");
       (3, Admin.POST_admin_update_password "mine");
       (4, Admin.GET_admin_playlists) ] anonymous).1 = anonymous
  ∧ Forall2 (λ req answer,
       Admin.guarded req.2 = true → answer = Admin.Redirect "/admin/login")
      [ (1, Admin.POST_admin_login "admin" "guess");
        (2, Admin.POST_admin_delete_song "abc123");
        (3, Admin.POST_admin_update_password "mine");
        (4, Admin.GET_admin_playlists) ]
      (Admin.serve sample_backend
         [ (1, Admin.POST_admin_login "admin" "guess");
           (2, Admin.POST_admin_delete_song "abc123");
           (3, Admin.POST_admin_update_password "mine");
           (4, Admin.GET_admin_playlists) ] anonymous).2.
Proof.
  apply anonymous_client_changes_nothing; [reflexivity|].
  intros now u p Hin (user & Hfind & Hcmp).
  apply elem_of_cons in Hin as [[= -> -> ->]|Hin].
  - vm_compute in Hfind. injection Hfind as <-. vm_compute in Hcmp. discriminate.
  - repeat (apply elem_of_cons in Hin as [Hin|Hin]; [discriminate|]).
    by apply elem_of_nil in Hin.
Defined.

(** X15: the first-time setup, when the store answers it, leaves a table
    that has a user called admin, and running it again changes nothing.  On
    a table that had no such user, and with a bcrypt whose [compare] accepts
    the password a hash was made from, the login admin/admin is then
    accepted: it stores the new user's id in the session and redirects to
    /admin. *)
Theorem setup_creates_the_default_admin_once bk t d :
  Admin.store_answers bk t = true →
  is_Some (Admin.User_findOne "admin" (Admin.Users (Admin.setup bk t d)))
  ∧ (∀ t', Admin.setup bk t' (Admin.setup bk t d) = Admin.setup bk t d)
  ∧ (Admin.User_findOne "admin" (Admin.Users d) = None →
     (∀ p salt, Admin.compare bk p (Admin.hash bk p salt) = true) →
     ∀ t' s, Admin.store_answers bk t' = true →
       Admin.handle bk t' (Admin.POST_admin_login "admin" "admin")
         {| Admin.db := Admin.setup bk t d; Admin.userId := s |}
       = ({| Admin.db := Admin.setup bk t d;
             Admin.userId := Some (Admin.last_user_id d + 1) |},
          Admin.Redirect "/admin")).
Proof.
  intros Hup.
  assert (is_Some (Admin.User_findOne "admin" (Admin.Users (Admin.setup bk t d)))) as Hsome.
  { unfold Admin.setup. rewrite Hup.
    destruct (Admin.User_findOne "admin" (Admin.Users d)) eqn:Hfind.
    - by rewrite Hfind.
    - simpl. by erewrite User_findOne_app_new. }
  split_and!; [done| |].
  - intros t'. destruct Hsome as [user Huser].
    unfold Admin.setup at 1. rewrite Huser. by destruct (Admin.store_answers bk t').
  - intros Hnone Hbcrypt t' s Hup'. simpl. unfold Admin.querying, Admin.login.
    rewrite Hup'. unfold Admin.setup. rewrite Hup, Hnone. simpl.
    erewrite User_findOne_app_new by done. simpl. by rewrite Hbcrypt.
Qed.

(** On the empty store of a first start the setup creates user 1. *)
Lemma sample_first_start :
  is_Some (Admin.User_findOne "admin" (Admin.Users (Admin.setup sample_backend 0 empty_db)))
  ∧ (∀ t', Admin.setup sample_backend t' (Admin.setup sample_backend 0 empty_db)
           = Admin.setup sample_backend 0 empty_db)
  ∧ (Admin.User_findOne "admin" (Admin.Users empty_db) = None →
     (∀ p salt, Admin.compare sample_backend p (Admin.hash sample_backend p salt) = true) →
     ∀ t' s, Admin.store_answers sample_backend t' = true →
       Admin.handle sample_backend t' (Admin.POST_admin_login "admin" "admin")
         {| Admin.db := Admin.setup sample_backend 0 empty_db; Admin.userId := s |}
       = ({| Admin.db := Admin.setup sample_backend 0 empty_db;
             Admin.userId := Some (Admin.last_user_id empty_db + 1) |},
          Admin.Redirect "/admin")).
Proof. apply (setup_creates_the_default_admin_once sample_backend 0 empty_db). reflexivity. Defined.

(** The first login after the first start of the sample store. *)
Example sample_first_login :
  Admin.serve sample_backend
    [ (1, Admin.GET_admin); (2, Admin.POST_admin_login "admin" "admin"); (3, Admin.GET_admin) ]
    {| Admin.db := Admin.setup sample_backend 0 empty_db; Admin.userId := None |}
  = ({| Admin.db := Admin.setup sample_backend 0 empty_db; Admin.userId := Some 1 |},
     [ Admin.Redirect "/admin/login"; Admin.Redirect "/admin"; Admin.Render "admin" [] ]).
Proof. reflexivity. Qed.

(** X16: a password change takes effect for the session's user and for
    nobody else.  When the session's user is the one its name finds and the
    store answers, afterwards a password logs that name in exactly when
    bcrypt accepts it against the hash of the new password made at that
    instant (the old hash is gone), users of another id are as before, and
    a later setup does not put the default password back. *)
Theorem update_password_replaces_the_hash bk now newPassword st user :
  Admin.truthy (Admin.userId st) = true →
  Admin.store_answers bk now = true →
  Admin.User_findByPk (Admin.userId st) (Admin.Users (Admin.db st)) = Some user →
  Admin.User_findOne (User.username user) (Admin.Users (Admin.db st)) = Some user →
  let after := (Admin.handle bk now (Admin.POST_admin_update_password newPassword) st).1 in
  (Admin.handle bk now (Admin.POST_admin_update_password newPassword) st).2
    = Admin.Redirect "/admin"
  ∧ (∀ p, Admin.accepted bk (Admin.Users (Admin.db after)) (User.username user) p
          ↔ Admin.compare bk p (Admin.hash bk newPassword now) = true)
  ∧ (∀ u, u ∈ Admin.Users (Admin.db st) → User.id u ≠ User.id user →
          u ∈ Admin.Users (Admin.db after))
  ∧ (User.username user = "admin" →
     ∀ t, Admin.setup bk t (Admin.db after) = Admin.db after).
Proof.
  intros Hs Hup Hpk Hname. cbv zeta. simpl.
  rewrite isAuthenticated_session by done.
  unfold Admin.querying, Admin.update_password. rewrite Hup, Hpk. simpl.
  pose proof (User_findOne_saved _ _ _ (Admin.hash bk newPassword now) Hname) as Hsaved.
  split_and!; [done| | |].
  - intros p. unfold Admin.accepted. rewrite Hsaved. split.
    + by intros (? & [= <-] & Hcmp).
    + intros Hcmp. by eexists.
  - intros u Hin Hid.
    apply list_elem_of_fmap. exists u. split; [|done]. by rewrite decide_False.
  - intros Hadmin t. unfold Admin.setup. simpl. rewrite <- Hadmin, Hsaved.
    by destruct (Admin.store_answers bk t).
Qed.

(** On the sample store the admin changes the password to [mine]. *)
Lemma sample_update_password :
  let after :=
    (Admin.handle sample_backend 5 (Admin.POST_admin_update_password "mine") logged_in).1 in
  (Admin.handle sample_backend 5 (Admin.POST_admin_update_password "mine") logged_in).2
    = Admin.Redirect "/admin"
  ∧ (∀ p, Admin.accepted sample_backend (Admin.Users (Admin.db after)) "admin" p
          ↔ Admin.compare sample_backend p (Admin.hash sample_backend "mine" 5) = true)
  ∧ (∀ u, u ∈ Admin.Users (Admin.db logged_in) → User.id u ≠ 1 →
          u ∈ Admin.Users (Admin.db after))
  ∧ ("admin" = "admin" →
     ∀ t, Admin.setup sample_backend t (Admin.db after) = Admin.db after).
Proof.
  exact (update_password_replaces_the_hash sample_backend 5 "mine" logged_in
           (User.mk 1 "admin" "$2b$10$admin") eq_refl eq_refl eq_refl eq_refl).
Defined.

(** X17: what [/admin/add-song] does to the catalogue served.  With a
    session and a store that answers: under a name no playlist carries the
    answer is 400 and nothing changes; otherwise the answer is the redirect
    and [/api/playlists] then serves the same playlists as before, each with
    the songs it had, and the new song, with views 0 and likes 0, added last
    to every playlist that has the id of the first playlist of that name. *)
Theorem add_song_extends_the_catalogue bk now Artist title cover youtubeid playlist st :
  Admin.truthy (Admin.userId st) = true →
  Admin.store_answers bk now = true →
  let request := Admin.POST_admin_add_song Artist title cover youtubeid playlist in
  let after := (Admin.handle bk now request st).1 in
  let served d := Admin.formatted (Admin.Playlist_findAll_with_Songs d) in
  match Admin.Playlist_findOne playlist (Admin.Playlists (Admin.db st)) with
  | None =>
      (Admin.handle bk now request st).2 = Admin.Send 400 "Playlist not found"
      ∧ after = st
  | Some found =>
      (Admin.handle bk now request st).2 = Admin.Redirect "/admin"
      ∧ served (Admin.db after)
        = zip_with
            (λ p entry,
               if decide (Playlist.id p = Playlist.id found)
               then {| ApiPlaylist.name := ApiPlaylist.name entry;
                       ApiPlaylist.cover := ApiPlaylist.cover entry;
                       ApiPlaylist.Songs :=
                         ApiPlaylist.Songs entry
                         ++ [ ApiSong.mk Artist title cover youtubeid (CInt 0) (CInt 0) ] |}
               else entry)
            (Admin.Playlists (Admin.db st)) (served (Admin.db st))
  end.
Proof.
  intros Hs Hup. cbv zeta. simpl.
  rewrite isAuthenticated_session by done.
  unfold Admin.querying, Admin.add_song. rewrite Hup.
  destruct (Admin.Playlist_findOne _ _) as [found|]; [|done].
  split; [done|]. simpl.
  unfold Admin.formatted, Admin.Playlist_findAll_with_Songs. simpl.
  rewrite <- !list_fmap_compose, zip_with_fmap_r, zip_with_diag.
  apply list_fmap_ext. intros i p _. simpl.
  rewrite filter_app, fmap_app, filter_cons, filter_nil. simpl.
  destruct (decide (Playlist.id found = Playlist.id p)) as [Heq|Hne].
  - by rewrite decide_True.
  - rewrite decide_False by done. simpl. by rewrite app_nil_r.
Qed.

(** The admin adds a song to the first playlist of the sample store. *)
Lemma sample_add_song :
  let request := Admin.POST_admin_add_song "artist" "new" "new.png" "new0001" "Chill" in
  let after := (Admin.handle sample_backend 7 request logged_in).1 in
  let served d := Admin.formatted (Admin.Playlist_findAll_with_Songs d) in
  (Admin.handle sample_backend 7 request logged_in).2 = Admin.Redirect "/admin"
  ∧ served (Admin.db after)
    = zip_with
        (λ p entry,
           if decide (Playlist.id p = 1)
           then {| ApiPlaylist.name := ApiPlaylist.name entry;
                   ApiPlaylist.cover := ApiPlaylist.cover entry;
                   ApiPlaylist.Songs :=
                     ApiPlaylist.Songs entry
                     ++ [ ApiSong.mk "artist" "new" "new.png" "new0001" (CInt 0) (CInt 0) ] |}
           else entry)
        (Admin.Playlists (Admin.db logged_in)) (served (Admin.db logged_in)).
Proof.
  exact (add_song_extends_the_catalogue sample_backend 7 "artist" "new" "new.png" "new0001"
           "Chill" logged_in eq_refl eq_refl).
Defined.

Lemma served_songs_without y i (to_api : Song.t → ApiSong.t) (songs : list Song.t) :
  (∀ s, ApiSong.youtubeid (to_api s) = Song.youtubeid s) →
  to_api <$> filter (λ s, Song.playlistId s = i) (filter (λ s, Song.youtubeid s ≠ y) songs)
  = filter (λ a, ApiSong.youtubeid a ≠ y)
      (to_api <$> filter (λ s, Song.playlistId s = i) songs).
Proof.
  intros Hy. induction songs as [|s songs IH]; [done|].
  rewrite !filter_cons.
  destruct (decide (Song.youtubeid s ≠ y)) as [Hkeep|Hdrop];
    destruct (decide (Song.playlistId s = i)) as [Hin|Hout];
    rewrite ?filter_cons, ?fmap_cons, ?filter_cons, ?Hy;
    rewrite ?(decide_True (P := Song.playlistId s = i)) by done;
    rewrite ?(decide_False (P := Song.playlistId s = i)) by done;
    rewrite ?(decide_True (P := Song.youtubeid s ≠ y)) by done;
    rewrite ?(decide_False (P := Song.youtubeid s ≠ y)) by done;
    rewrite ?fmap_cons; by rewrite IH.
Qed.

(** X18: [/admin/delete-song] takes a youtubeid, not a song.  With a
    session and a store that answers it redirects to /admin, and
    [/api/playlists] then serves the same playlists with the same songs in
    the same order, less every song of that youtubeid, in every playlist. *)
Theorem delete_song_removes_the_youtubeid_everywhere bk now youtubeid st :
  Admin.truthy (Admin.userId st) = true →
  Admin.store_answers bk now = true →
  let after := (Admin.handle bk now (Admin.POST_admin_delete_song youtubeid) st).1 in
  let served d := Admin.formatted (Admin.Playlist_findAll_with_Songs d) in
  (Admin.handle bk now (Admin.POST_admin_delete_song youtubeid) st).2 = Admin.Redirect "/admin"
  ∧ served (Admin.db after)
    = (λ entry,
         {| ApiPlaylist.name := ApiPlaylist.name entry;
            ApiPlaylist.cover := ApiPlaylist.cover entry;
            ApiPlaylist.Songs :=
              filter (λ s, ApiSong.youtubeid s ≠ youtubeid) (ApiPlaylist.Songs entry) |})
      <$> served (Admin.db st).
Proof.
  intros Hs Hup. cbv zeta. simpl.
  rewrite isAuthenticated_session by done.
  unfold Admin.querying. rewrite Hup. split; [done|]. simpl.
  unfold Admin.formatted, Admin.Playlist_findAll_with_Songs. simpl.
  rewrite <- !list_fmap_compose.
  apply list_fmap_ext. intros i p _. simpl.
  by rewrite served_songs_without.
Qed.

(** The admin deletes a song of the sample store. *)
Lemma sample_delete_song :
  let after := (Admin.handle sample_backend 9 (Admin.POST_admin_delete_song "xyz789") logged_in).1 in
  let served d := Admin.formatted (Admin.Playlist_findAll_with_Songs d) in
  (Admin.handle sample_backend 9 (Admin.POST_admin_delete_song "xyz789") logged_in).2
    = Admin.Redirect "/admin"
  ∧ served (Admin.db after)
    = (λ entry,
         {| ApiPlaylist.name := ApiPlaylist.name entry;
            ApiPlaylist.cover := ApiPlaylist.cover entry;
            ApiPlaylist.Songs :=
              filter (λ s, ApiSong.youtubeid s ≠ "xyz789") (ApiPlaylist.Songs entry) |})
      <$> served (Admin.db logged_in).
Proof.
  exact (delete_song_removes_the_youtubeid_everywhere sample_backend 9 "xyz789" logged_in
           eq_refl eq_refl).
Defined.

Lemma handle_finds_the_session_user bk now req st :
  Admin.session_has_user st →
  (Admin.handle bk now req st).2 ≠ Admin.Unanswered "TypeError".
Proof.
  intros Hinv.
  destruct req; simpl; unfold Admin.isAuthenticated, Admin.querying;
    try (by repeat case_match).
  - unfold Admin.login. by repeat case_match.
  - unfold Admin.add_song. by repeat case_match.
  - unfold Admin.delete_playlist. by repeat case_match.
  - destruct (Admin.truthy _) eqn:Hs; [|done].
    destruct (Admin.store_answers bk now); [|done].
    unfold Admin.update_password.
    by destruct (User_findByPk_session st Hinv Hs) as [user ->].
Qed.

(** X19: [/admin/update-password] never fails on a missing user in a
    session the application made.  When the session's id, if any, is that of
    a user of the table, this stays so after any requests, and none of them
    ends in the TypeError of line 209, whatever the store and bcrypt do. *)
Theorem update_password_finds_its_user bk reqs st :
  Admin.session_has_user st →
  Admin.session_has_user (Admin.serve bk reqs st).1
  ∧ Forall (λ answer, answer ≠ Admin.Unanswered "TypeError") (Admin.serve bk reqs st).2.
Proof.
  revert st. induction reqs as [|[now req] reqs IH]; intros st Hinv.
  - split; [done|constructor].
  - rewrite serve_cons.
    destruct (IH _ (handle_session_has_user bk now req st Hinv)) as [IHst IHanswers].
    split; [done|]. constructor; [|done]. by apply handle_finds_the_session_user.
Qed.

(** The admin of the sample store changes the password twice. *)
Lemma sample_session_keeps_its_user :
  Admin.session_has_user
    (Admin.serve sample_backend
       [ (1, Admin.POST_admin_update_password "mine");
         (2, Admin.POST_admin_update_password "other") ] logged_in).1
  ∧ Forall (λ answer, answer ≠ Admin.Unanswered "TypeError")
      (Admin.serve sample_backend
         [ (1, Admin.POST_admin_update_password "mine");
           (2, Admin.POST_admin_update_password "other") ] logged_in).2.
Proof.
  apply update_password_finds_its_user.
  intros n [= <-]. exists (User.mk 1 "admin" "$2b$10$admin").
  split; [apply list_elem_of_here|reflexivity].
Defined.

(** A session whose id no user carries does reach the TypeError. *)
Example session_without_user_throws :
  Admin.handle sample_backend 1 (Admin.POST_admin_update_password "mine")
    {| Admin.db := empty_db; Admin.userId := Some 5 |}
  = ({| Admin.db := empty_db; Admin.userId := Some 5 |}, Admin.Unanswered "TypeError").
Proof. reflexivity. Qed.
